(** * apollo-upload-client: the file extraction core and the multipart form

    A shallow embedding of [extractFiles] with its local function [recurse],
    and of the form-building part of [request] in the upload links
    [UploadLink] and [UploadHttpLink].  Line numbers in the comments are
    those of src/createUploadLink/UploadLink.ts.

    JavaScript values live in a heap of objects addressed by location, so
    that object identity, shared references and cyclic references are part
    of the model.  The [Map] of clones is a [gmap], the [Map] of files an
    association list in insertion order, the [Set] of open containers a
    [gset].

    Modelling conventions:
    - an array or [FileList] is the list of its items; a plain object is
      the list of its enumerable string-keyed data properties, in
      [for ... in] order;
    - [recurse] and [extractFiles] take the assignment to a key of a clone
      as the creation of an own property placed after the existing ones;
      [Js.recurse] and [Js.extractFiles] are the same code with the
      assignment as the engine performs it, which differs for the key
      [__proto__] and for array indices (theorem [extractFiles_ordinary]
      relates the two);
    - the classifier [isExtractable] is a pure, total predicate on values;
    - [for ... of] and [for ... in] read the container when the loop starts;
    - the recursion of [recurse] is not structural (the heap may be cyclic),
      so it carries a fuel argument: [None] means that the fuel ran out.
      The depth of the JavaScript call stack is not modelled. *)

From stdpp Require Import gmap strings list pretty.

Set Warnings "-clear-no-such-hyp".

Open Scope string_scope.
Open Scope list_scope.
Open Scope nat_scope.

(** ** Values and the heap *)

Abbreviation loc := nat (only parsing).

Inductive value :=
  | VUndefined
  | VNull
  | VBool (b : bool)
  | VNumber (n : Z)
  | VString (s : string)
  | VRef (l : loc).

Global Instance value_eq_dec : EqDecision value.
Proof. solve_decision. Defined.

(** Heap objects.  [OPlain inst props] is an object accepted by
    [isPlainObject]; [inst] tells whether it is an [Object] instance (the
    other case is a null prototype).  [OOther] stands for every object that
    is neither an array, a [FileList] nor a plain object ([File], [Blob],
    class instances, functions, ...). *)
Inductive object :=
  | OArray (items : list value)
  | OFileList (items : list value)
  | OPlain (inst : bool) (props : list (string * value))
  | OOther (tag : string).

Abbreviation heap := (list object) (only parsing).

(** ** State of one [extractFiles] call *)

Record state := State {
  store : heap;
  clones : gmap loc loc;
  files : list (value * list string)
}.

(** [files.get(value)] *)
Fixpoint files_get (fs : list (value * list string)) (v : value)
  : option (list string) :=
  match fs with
  | [] => None
  | (k, ps) :: fs' => if decide (k = v) then Some ps else files_get fs' v
  end.

(** [filePaths.push(path)] on the list stored under [v]; the entry keeps
    its place in the map. *)
Fixpoint files_push (fs : list (value * list string)) (v : value)
    (path : string) : list (value * list string) :=
  match fs with
  | [] => []
  | (k, ps) :: fs' =>
      if decide (k = v) then (k, ps ++ [path]) :: fs'
      else (k, ps) :: files_push fs' v path
  end.

(** Lines 372-378 of [recurse]: append to the existing path list, or add a
    new entry at the end of the map. *)
Definition files_record (fs : list (value * list string)) (v : value)
    (path : string) : list (value * list string) :=
  match files_get fs v with
  | Some _ => files_push fs v path
  | None => fs ++ [(v, [path])]
  end.

(** [clone[key] = v] on a property list, for a key that becomes an own
    property listed after the existing ones: overwrite in place or append.
    [Js.own_set] adds the place that the engine gives to an array index. *)
Fixpoint prop_set {A} (props : list (string * A)) (key : string) (v : A)
  : list (string * A) :=
  match props with
  | [] => [(key, v)]
  | (k, w) :: props' =>
      if decide (k = key) then (k, v) :: props'
      else (k, w) :: prop_set props' key v
  end.

(** [clone.push(v)] *)
Definition array_push (clone : loc) (v : value) (h : heap) : heap :=
  match h !! clone with
  | Some (OArray items) => <[clone := OArray (items ++ [v])]> h
  | _ => h
  end.

(** [clone[key] = v], for a key that becomes an own property of the clone.
    [Js.assign] adds what the engine does for the key [__proto__]. *)
Definition object_set (clone : loc) (key : string) (v : value) (h : heap)
  : heap :=
  match h !! clone with
  | Some (OPlain inst props) => <[clone := OPlain inst (prop_set props key v)]> h
  | _ => h
  end.

Definition with_store (st : state) (h : heap) : state :=
  State h (clones st) (files st).

(** ** The recognised containers *)

Inductive shape :=
  | SList (items : list value)
  | SPlain (inst : bool) (props : list (string * value)).

Section Extract.

(** [typeof FileList !== 'undefined'] *)
Variable FileList_defined : bool.

(** [valueIsList || valueIsPlainObject], together with the identity of the
    container and what the loops iterate over. *)
Definition container (h : heap) (v : value) : option (loc * shape) :=
  match v with
  | VRef l =>
      match h !! l with
      | Some (OArray items) => Some (l, SList items)
      | Some (OFileList items) =>
          if FileList_defined then Some (l, SList items) else None
      | Some (OPlain inst props) => Some (l, SPlain inst props)
      | _ => None
      end
  | _ => None
  end.

(** The empty clone of lines 394-399. *)
Definition empty_clone (s : shape) : object :=
  match s with
  | SList _ => OArray []
  | SPlain inst _ => OPlain inst []
  end.

(** Lines 389-402: look the clone up, or allocate and register it. *)
Definition get_clone (l : loc) (s : shape) (st : state)
  : loc * bool * state :=
  match clones st !! l with
  | Some clone => (clone, false, st)
  | None =>
      let clone := length (store st) in
      (clone, true,
       State (store st ++ [empty_clone s]) (<[l := clone]> (clones st))
             (files st))
  end.

(** Lines 409-419, the loop over the items of a list. *)
Fixpoint for_of (rec : value → string → state → option (value * state))
    (pathPrefix : string) (clone : loc) (uncloned : bool)
    (items : list value) (index : nat) (st : state) : option state :=
  match items with
  | [] => Some st
  | item :: rest =>
      '(itemClone, st1) ← rec item (pathPrefix +:+ pretty index) st;
      for_of rec pathPrefix clone uncloned rest (S index)
        (if uncloned then with_store st1 (array_push clone itemClone (store st1))
         else st1)
  end.

(** Lines 421-431, the loop over the properties of a plain object. *)
Fixpoint for_in (rec : value → string → state → option (value * state))
    (pathPrefix : string) (clone : loc) (uncloned : bool)
    (props : list (string * value)) (st : state) : option state :=
  match props with
  | [] => Some st
  | (key, v) :: rest =>
      '(propertyClone, st1) ← rec v (pathPrefix +:+ key) st;
      for_in rec pathPrefix clone uncloned rest
        (if uncloned
         then with_store st1 (object_set clone key propertyClone (store st1))
         else st1)
  end.

Variable isExtractable : value → bool.

Fixpoint recurse (fuel : nat) (v : value) (path : string)
    (recursed : gset loc) (st : state) : option (value * state) :=
  match fuel with
  | 0 => None
  | S fuel' =>
      if isExtractable v then
        Some (VNull, State (store st) (clones st) (files_record (files st) v path))
      else
        match container (store st) v with
        | Some (l, s) =>
            let '(clone, uncloned, st1) := get_clone l s st in
            if decide (l ∈ recursed) then Some (VRef clone, st1)
            else
              let pathPrefix := if decide (path = "") then "" else path +:+ "." in
              let recursedDeeper := recursed ∪ {[l]} in
              let rec := λ v p st, recurse fuel' v p recursedDeeper st in
              st2 ← match s with
                    | SList items => for_of rec pathPrefix clone uncloned items 0 st1
                    | SPlain _ props => for_in rec pathPrefix clone uncloned props st1
                    end;
              Some (VRef clone, st2)
        | None => Some (v, st)
        end
  end.

End Extract.

(** ** The entry point *)

(** An argument of a call: a callable with its behaviour as a classifier,
    or any other value. *)
Inductive arg :=
  | AVal (v : value)
  | AFun (l : loc) (f : value → bool).

Definition arg_value (a : arg) : value :=
  match a with
  | AVal v => v
  | AFun l _ => VRef l
  end.

Inductive outcome :=
  | Throw (msg : string)
  | Return (clone : value) (fs : list (value * list string)) (h : heap).

(** [path: ObjectPath = ''] followed by [typeof path !== 'string']. *)
Definition path_argument (a : option arg) : option string :=
  match a with
  | None | Some (AVal VUndefined) => Some ""
  | Some (AVal (VString s)) => Some s
  | Some _ => None
  end.

Definition extractFiles (FileList_defined : bool) (fuel : nat) (h : heap)
    (args : list arg) : option outcome :=
  match args with
  | [] => Some (Throw "Argument 1 `value` is required.")
  | a :: rest =>
      match rest !! 0 with
      | Some (AFun _ isExtractable) =>
          match path_argument (rest !! 1) with
          | Some path =>
              '(clone, st) ← recurse FileList_defined isExtractable fuel
                               (arg_value a) path ∅ (State h ∅ []);
              Some (Return clone (files st) (store st))
          | None => Some (Throw "Argument 3 `path` must be a string.")
          end
      | _ => Some (Throw "Argument 2 `isExtractable` must be a function.")
      end
  end.

(** ** The multipart form of the upload links *)

(** What is appended to a [FormData]: a string, or a file with the file
    name passed along, if any. *)
Inductive form_value :=
  | FString (s : string)
  | FBlob (file : value) (filename : option string).

Abbreviation form := (list (string * form_value)) (only parsing).

Inductive request_body :=
  | UseHttpLink
  | Multipart (body : form).

Section Upload.

(** [JSON.stringify] on the clone and on the map object. *)
Variable JSON_stringify : heap → value → string.
Variable JSON_stringify_map : list (string * list string) → string.

(** [file.name], when ['name' in file]. *)
Variable file_name : value → option string.

Definition formDataAppendFile (formData : form) (fieldName : string)
    (file : value) : form :=
  match file_name file with
  | Some name => formData ++ [(fieldName, FBlob file (Some name))]
  | None => formData ++ [(fieldName, FBlob file None)]
  end.

(** [(paths) => { map[++i] = paths; }], on the counter and the map. *)
Definition map_step (acc : nat * list (string * list string))
    (e : value * list string) : nat * list (string * list string) :=
  let i := S acc.1 in (i, prop_set acc.2 (pretty i) e.2).

(** [let i = 0; files.forEach((paths) => { map[++i] = paths; })] *)
Definition build_map (fs : list (value * list string))
  : list (string * list string) :=
  (fold_left map_step fs (0, [])).2.

(** [(_paths, file) => { append(form, String(++i), file); }] *)
Definition append_step (appender : form → string → value → form)
    (acc : nat * form) (e : value * list string) : nat * form :=
  let i := S acc.1 in (i, appender acc.2 (pretty i) e.1).

(** [i = 0; files.forEach((_paths, file) => { ... })] *)
Definition append_files (appender : form → string → value → form)
    (fs : list (value * list string)) (body : form) : form :=
  (fold_left (append_step appender) fs (0, body)).2.

(** The body of [request] from the result of [extractFiles] on (lines
    145-182; [serializeFetchParameter] is [JSON.stringify]).  Without files
    the request is handed to the plain HTTP link. *)
Definition upload_body (appender : form → string → value → form)
    (clone : value) (fs : list (value * list string)) (h : heap)
  : request_body :=
  if decide (length fs = 0) then UseHttpLink
  else
    let body := [("operations", FString (JSON_stringify h clone))] in
    let map := build_map fs in
    let body := body ++ [("map", FString (JSON_stringify_map map))] in
    Multipart (append_files appender fs body).

(** Lines 138-142: the files are extracted from the operation body with
    the empty prefix. *)
Definition request (F : bool) (fuel : nat) (h : heap) (body : value)
    (lf : loc) (isExtractable : value → bool)
    (appender : form → string → value → form) : option request_body :=
  match extractFiles F fuel h [AVal body; AFun lf isExtractable; AVal (VString "")] with
  | Some (Return clone fs h') => Some (upload_body appender clone fs h')
  | _ => None
  end.

End Upload.

(** ** The default classifier *)

(** [value instanceof File] and [value instanceof Blob]: the tag of an
    object names its class, and [File] extends [Blob]. *)
Definition instanceof_File (h : heap) (v : value) : bool :=
  match v with
  | VRef l =>
      match h !! l with
      | Some (OOther tag) => bool_decide (tag = "File")
      | _ => false
      end
  | _ => false
  end.

Definition instanceof_Blob (h : heap) (v : value) : bool :=
  match v with
  | VRef l =>
      match h !! l with
      | Some (OOther tag) => bool_decide (tag = "Blob") || bool_decide (tag = "File")
      | _ => false
      end
  | _ => false
  end.

(** Lines 456-461; the two flags are [typeof File !== 'undefined'] and
    [typeof Blob !== 'undefined']. *)
Definition isExtractableFile (File_defined Blob_defined : bool) (h : heap)
    (v : value) : bool :=
  (File_defined && instanceof_File h v) || (Blob_defined && instanceof_Blob h v).

(** ** [compact] *)

(** [obj[key]] on a property list. *)
Fixpoint prop_get {A} (props : list (string * A)) (key : string) : option A :=
  match props with
  | [] => None
  | (k, w) :: props' => if decide (k = key) then Some w else prop_get props' key
  end.




(** ** The headers of the request context *)

(** [{ ...target, ...source }] onto [target]; spreading [undefined] or any
    other falsy value adds nothing. *)
Definition spread (target : list (string * value))
    (source : option (list (string * value))) : list (string * value) :=
  match source with
  | None => target
  | Some props => fold_left (λ t kv, prop_set t kv.1 kv.2) props target
  end.

(** [name && { [key]: name }], for [name] a string or [undefined]: the
    empty string is falsy. *)
Definition header_if (key : string) (name : option string)
  : option (list (string * value)) :=
  match name with
  | Some s => if decide (s = "") then None else Some [(key, VString s)]
  | None => None
  end.

(** Lines 123-127 of [UploadLink]: the client awareness headers, then the
    headers of the context. *)
Definition context_headers (name version : option string)
    (contextHeaders : option (list (string * value)))
  : list (string * value) :=
  spread (spread (spread [] (header_if "apollographql-client-name" name))
                 (header_if "apollographql-client-version" version))
         contextHeaders.

(** * The assignment to a key, as the engine performs it

    [object_set] above reads [clone[key] = propertyClone] (line 429) as the
    creation of an own property placed after the existing ones.  The engine
    does that for an ordinary key of an object whose keys are listed in
    own-property order.  It does not for two kinds of keys:
    - the own keys of an object list the array indices first, in ascending
      numeric order, so that an array index assigned after another key is
      not placed last;
    - on a clone that is an [Object] instance ([{}], line 397) the key
      [__proto__] is found on [Object.prototype] as an accessor, and the
      assignment calls its setter: no own property is created, the
      prototype of the clone is replaced when the value is an object or
      [null], and a [TypeError] is raised when the clone is on the prototype
      chain of that object.  On the clone of a null-prototype object
      ([Object.create(null)], line 398) the same assignment creates the own
      property.
    The module [Js] is the same code with the assignment modelled on the
    engine's objects.  It carries, next to the state of [recurse], the
    prototypes that the run has replaced. *)

Module Js.

(** The value of a decimal digit. *)
Definition digit (a : Ascii.ascii) : option N :=
  let n := Ascii.N_of_ascii a in
  if bool_decide (48 ≤ n ∧ n ≤ 57)%N then Some (n - 48)%N else None.

Fixpoint digits (s : string) (acc : N) : option N :=
  match s with
  | EmptyString => Some acc
  | String a rest => d ← digit a; digits rest (acc * 10 + d)%N
  end.

(** The array index that [key] is the canonical decimal form of: an integer
    from 0 to 2^32 - 2, written without a leading zero. *)
Definition array_index (key : string) : option N :=
  match key with
  | EmptyString => None
  | String a rest =>
      if bool_decide (digit a = Some 0%N) then
        if bool_decide (rest = "") then Some 0%N else None
      else
        n ← digits key 0;
        if bool_decide (n < 4294967295)%N then Some n else None
  end.

(** The place of a new array index [n] among the own properties: after the
    smaller array indices and before every other key. *)
Fixpoint insert_index {A} (n : N) (key : string) (v : A)
    (props : list (string * A)) : list (string * A) :=
  match props with
  | [] => [(key, v)]
  | (k, w) :: rest =>
      match array_index k with
      | Some m =>
          if bool_decide (m < n)%N then (k, w) :: insert_index n key v rest
          else (key, v) :: props
      | None => (key, v) :: props
      end
  end.

(** An own data property is written in place when the key exists; a new
    array index takes its numeric place and any other new key is added at
    the end. *)
Definition own_set {A} (props : list (string * A)) (key : string) (v : A)
  : list (string * A) :=
  if bool_decide (key ∈ props.*1) then prop_set props key v
  else
    match array_index key with
    | Some n => insert_index n key v props
    | None => props ++ [(key, v)]
    end.

(** A step of the code: a result, an exception raised by the engine, or a
    step whose effect depends on the properties of an object that the heap
    does not describe ([Unspecified]). *)
Inductive result (A : Type) :=
  | Done (a : A)
  | Raise (msg : string)
  | Unspecified.

Arguments Done {A} a.
Arguments Raise {A} msg.
Arguments Unspecified {A}.

Definition bind {A B} (m : option (result A))
    (k : A → option (result B)) : option (result B) :=
  match m with
  | Some (Done a) => k a
  | Some (Raise msg) => Some (Raise msg)
  | Some Unspecified => Some Unspecified
  | None => None
  end.

(** The state of [recurse] and the prototypes replaced so far: [protos]
    maps a clone to the object or [null] that the [__proto__] setter has
    given it as prototype.  A clone that is not in [protos] has the
    prototype it was created with. *)
Record jstate := JState {
  base : state;
  protos : gmap loc value
}.

(** The objects on the prototype chain from [o] upwards, as far as the run
    has replaced prototypes. *)
Fixpoint chain (n : nat) (ps : gmap loc value) (o : loc) : list loc :=
  match n with
  | 0 => []
  | S n' =>
      o :: match ps !! o with
           | Some (VRef o') => chain n' ps o'
           | _ => []
           end
  end.

(** The [__proto__] setter of [Object.prototype], called on [clone]: a
    value that is neither an object nor [null] is ignored; a prototype chain
    that would come back to [clone] is refused with a [TypeError] (the
    message is the one of V8). *)
Definition set_prototype (clone : loc) (v : value) (st : jstate)
  : result jstate :=
  match v with
  | VNull => Done (JState (base st) (<[clone := VNull]> (protos st)))
  | VRef o =>
      if bool_decide (clone ∈ chain (S (length (store (base st)))) (protos st) o)
      then Raise "Cyclic __proto__ value"
      else Done (JState (base st) (<[clone := VRef o]> (protos st)))
  | _ => Done st
  end.

(** An array or a plain object of the heap.  Its properties are data
    properties that can be written. *)
Definition described (h : heap) (o : loc) : bool :=
  match h !! o with
  | Some (OArray _) | Some (OPlain _ _) => true
  | _ => false
  end.

(** [clone[key] = v] (line 429).  The key is looked up on the clone and
    then along its prototype chain:
    - an [Object] instance that still has its first prototype inherits the
      accessor [__proto__], and nothing else that an assignment would see;
    - an object without prototype inherits nothing;
    - with a replaced prototype the chain consists of the objects of
      [chain]; arrays and plain objects have data properties only, so the
      key becomes an own property of the clone; what any other object
      holds under [key] is not described by the heap. *)
Definition assign (clone : loc) (key : string) (v : value) (st : jstate)
  : result jstate :=
  match store (base st) !! clone with
  | Some (OPlain inst props) =>
      let own :=
        Done (JState (with_store (base st)
                        (<[clone := OPlain inst (own_set props key v)]>
                           (store (base st))))
                     (protos st)) in
      match protos st !! clone with
      | None =>
          if inst && bool_decide (key = "__proto__")
          then set_prototype clone v st
          else own
      | Some (VRef o) =>
          if bool_decide (key ≠ "__proto__")
             && forallb (described (store (base st)))
                  (chain (S (length (store (base st)))) (protos st) o)
          then own
          else Unspecified
      | Some _ => own
      end
  | _ => Done st
  end.

Section Extract.

Variable FileList_defined : bool.

(** Lines 409-419. *)
Fixpoint for_of
    (rec : value → string → jstate → option (result (value * jstate)))
    (pathPrefix : string) (clone : loc) (uncloned : bool)
    (items : list value) (index : nat) (st : jstate)
  : option (result jstate) :=
  match items with
  | [] => Some (Done st)
  | item :: rest =>
      bind (rec item (pathPrefix +:+ pretty index) st) (λ '(itemClone, st1),
        for_of rec pathPrefix clone uncloned rest (S index)
          (if uncloned
           then JState (with_store (base st1)
                          (array_push clone itemClone (store (base st1))))
                       (protos st1)
           else st1))
  end.

(** Lines 421-431. *)
Fixpoint for_in
    (rec : value → string → jstate → option (result (value * jstate)))
    (pathPrefix : string) (clone : loc) (uncloned : bool)
    (props : list (string * value)) (st : jstate)
  : option (result jstate) :=
  match props with
  | [] => Some (Done st)
  | (key, v) :: rest =>
      bind (rec v (pathPrefix +:+ key) st) (λ '(propertyClone, st1),
        bind (Some (if uncloned then assign clone key propertyClone st1
                    else Done st1))
             (λ st2, for_in rec pathPrefix clone uncloned rest st2))
  end.

Variable isExtractable : value → bool.

(** Lines 366-439. *)
Fixpoint recurse (fuel : nat) (v : value) (path : string)
    (recursed : gset loc) (st : jstate) : option (result (value * jstate)) :=
  match fuel with
  | 0 => None
  | S fuel' =>
      if isExtractable v then
        Some (Done (VNull,
                    JState (State (store (base st)) (clones (base st))
                              (files_record (files (base st)) v path))
                           (protos st)))
      else
        match container FileList_defined (store (base st)) v with
        | Some (l, s) =>
            let '(clone, uncloned, b1) := get_clone l s (base st) in
            let st1 := JState b1 (protos st) in
            if decide (l ∈ recursed) then Some (Done (VRef clone, st1))
            else
              let pathPrefix := if decide (path = "") then "" else path +:+ "." in
              let recursedDeeper := recursed ∪ {[l]} in
              let rec := λ v p st, recurse fuel' v p recursedDeeper st in
              bind (match s with
                    | SList items =>
                        for_of rec pathPrefix clone uncloned items 0 st1
                    | SPlain _ props =>
                        for_in rec pathPrefix clone uncloned props st1
                    end)
                   (λ st2, Some (Done (VRef clone, st2)))
        | None => Some (Done (v, st))
        end
  end.

End Extract.

(** What a call gives: an exception, the clone with the file map, the heap
    and the replaced prototypes, or [Undescribed] for a run that met an
    [Unspecified] step. *)
Inductive outcome :=
  | Throw (msg : string)
  | Return (clone : value) (fs : list (value * list string)) (h : heap)
           (ps : gmap loc value)
  | Undescribed.

(** Lines 331-445. *)
Definition extractFiles (FileList_defined : bool) (fuel : nat) (h : heap)
    (args : list arg) : option outcome :=
  match args with
  | [] => Some (Throw "Argument 1 `value` is required.")
  | a :: rest =>
      match rest !! 0 with
      | Some (AFun _ isExtractable) =>
          match path_argument (rest !! 1) with
          | Some path =>
              match recurse FileList_defined isExtractable fuel
                      (arg_value a) path ∅ (JState (State h ∅ []) ∅) with
              | Some (Done (clone, st)) =>
                  Some (Return clone (files (base st)) (store (base st))
                          (protos st))
              | Some (Raise msg) => Some (Throw msg)
              | Some Unspecified => Some Undescribed
              | None => None
              end
          | None => Some (Throw "Argument 3 `path` must be a string.")
          end
      | _ => Some (Throw "Argument 2 `isExtractable` must be a function.")
      end
  end.

End Js.

(** * The vocabulary of the specification *)

(** ** Well-formed heaps *)

(** A reference points to an allocated object. *)
Definition wf_value (h : heap) (v : value) : Prop :=
  match v with
  | VRef l => l < length h
  | _ => True
  end.

Definition object_children (o : object) : list value :=
  match o with
  | OArray items | OFileList items => items
  | OPlain _ props => props.*2
  | OOther _ => []
  end.

Definition object_keys (o : object) : list string :=
  match o with
  | OPlain _ props => props.*1
  | _ => []
  end.

(** No dangling reference, and the keys of an object are distinct. *)
Definition wf_heap (h : heap) : Prop :=
  Forall (λ o, Forall (wf_value h) (object_children o) ∧ NoDup (object_keys o)) h.

Global Instance wf_value_dec (h : heap) v : Decision (wf_value h v).
Proof. destruct v; simpl; apply _. Defined.

Global Instance wf_heap_dec (h : heap) : Decision (wf_heap h).
Proof. unfold wf_heap. apply _. Defined.

(** ** Both loops as one *)

(** What a loop iterates over: the key that extends the path, and the
    child. *)
Fixpoint index_entries (index : nat) (items : list value)
  : list (string * value) :=
  match items with
  | [] => []
  | v :: rest => (pretty index, v) :: index_entries (S index) rest
  end.

Definition entries (s : shape) : list (string * value) :=
  match s with
  | SList items => index_entries 0 items
  | SPlain _ props => props
  end.

(** The clone object that holds the entries [d]. *)
Definition repr_obj (s : shape) (d : list (string * value)) : object :=
  match s with
  | SList _ => OArray d.*2
  | SPlain inst _ => OPlain inst d
  end.

Definition write (s : shape) (clone : loc) (key : string) (v : value)
    (h : heap) : heap :=
  match s with
  | SList _ => array_push clone v h
  | SPlain _ _ => object_set clone key v h
  end.

Fixpoint for_each (rec : value → string → state → option (value * state))
    (wr : string → value → heap → heap) (uncloned : bool)
    (pathPrefix : string) (kvs : list (string * value)) (st : state)
  : option state :=
  match kvs with
  | [] => Some st
  | (key, v) :: rest =>
      '(c, st1) ← rec v (pathPrefix +:+ key) st;
      for_each rec wr uncloned pathPrefix rest
        (if uncloned then with_store st1 (wr key c (store st1)) else st1)
  end.

Definition path_prefix (path : string) : string :=
  if decide (path = "") then "" else path +:+ ".".

(** ** Paths into a value *)

(** [value[key]] on the entries of a container. *)
Fixpoint lookup_entry (key : string) (es : list (string * value))
  : option value :=
  match es with
  | [] => None
  | (k, v) :: rest => if decide (k = key) then Some v else lookup_entry key rest
  end.

(** Follow the segments [p] from [v], descending through recognised
    containers only and never below a value that [isx] classifies as a
    file. *)
Fixpoint walk (F : bool) (isx : value → bool) (h : heap) (v : value)
    (p : list string) : option value :=
  match p with
  | [] => Some v
  | key :: p' =>
      if isx v then None
      else
        match container F h v with
        | Some (_, s) =>
            match lookup_entry key (entries s) with
            | Some u => walk F isx h u p'
            | None => None
            end
        | None => None
        end
  end.

(** Plain navigation, as in [clone.b[0]]. *)
Definition at_path (F : bool) (h : heap) (v : value) (p : list string)
  : option value :=
  walk F (λ _, false) h v p.

Definition same_kind (s1 s2 : shape) : Prop :=
  match s1, s2 with
  | SList _, SList _ => True
  | SPlain inst1 _, SPlain inst2 _ => inst1 = inst2
  | _, _ => False
  end.

(** Deep structural equality of two values living in two heaps, as a
    bisimulation: containers of the same kind (a list or an object) with
    the same keys in the same order and related children, and equal
    leaves.  It is defined on graphs, so it also compares cyclic values. *)
Definition deep_equal (F : bool) (h1 : heap) (v1 : value) (h2 : heap)
    (v2 : value) : Prop :=
  ∃ R : value → value → Prop,
    R v1 v2 ∧
    ∀ a b, R a b →
      match container F h1 a, container F h2 b with
      | Some (_, s1), Some (_, s2) =>
          same_kind s1 s2 ∧
          Forall2 (λ x y, x.1 = y.1 ∧ R x.2 y.2) (entries s1) (entries s2)
      | None, None => a = b
      | _, _ => False
      end.

(** The paths recorded for [f] by a sequence of occurrences. *)
Definition paths_of (f : value) (occ : list (value * string)) : list string :=
  (filter (λ o, o.1 = f) occ).*2.

(** ** The argument contract *)

Definition value_omitted (args : list arg) : Prop := args = [].

Definition classifier_not_callable (args : list arg) : Prop :=
  ∀ l f, args !! 1 ≠ Some (AFun l f).

(** The third argument is given, is not [undefined] (which selects the
    default [""]) and is not a string. *)
Definition path_not_string (args : list arg) : Prop :=
  ∃ a, args !! 2 = Some a ∧ a ≠ AVal VUndefined ∧ ∀ s, a ≠ AVal (VString s).

Definition contract_violation (args : list arg) : Prop :=
  value_omitted args ∨ classifier_not_callable args ∨ path_not_string args.

(** ** The invariant of the traversal *)

Section Invariant.

Variable F : bool.
Variable isx : value → bool.
Variable h0 : heap.

(** The clone of a value under the clone table [m]: a file becomes
    [null], a container becomes its registered clone, any other value is
    kept. *)
Definition clone_value (m : gmap loc loc) (v : value) : option value :=
  if isx v then Some VNull
  else match container F h0 v with
       | Some (l, _) => VRef <$> m !! l
       | None => Some v
       end.

Definition entry_cloned (m : gmap loc loc) (x y : string * value) : Prop :=
  x.1 = y.1 ∧ clone_value m x.2 = Some y.2.

(** [o] holds exactly the clones of the children of [s], in order. *)
Definition is_clone (m : gmap loc loc) (s : shape) (o : object) : Prop :=
  ∃ d, o = repr_obj s d ∧ Forall2 (entry_cloned m) (entries s) d.

(** Every object of [h] is unchanged in [h']. *)
Definition ext (h h' : heap) : Prop :=
  ∀ j o, h !! j = Some o → h' !! j = Some o.

Definition ext_except (c : loc) (h h' : heap) : Prop :=
  ∀ j o, j ≠ c → h !! j = Some o → h' !! j = Some o.

(** The invariant of the traversal; [rd] is the set of open containers. *)
Record inv (rd : gset loc) (st : state) : Prop := Inv {
  inv_ext : ext h0 (store st);
  inv_range : ∀ l c, clones st !! l = Some c →
    l < length h0 ∧ length h0 ≤ c < length (store st);
  inv_inj : ∀ l1 l2 c,
    clones st !! l1 = Some c → clones st !! l2 = Some c → l1 = l2;
  inv_open : ∀ l, l ∈ rd → is_Some (clones st !! l);
  inv_done : ∀ l c s,
    clones st !! l = Some c → l ∉ rd →
    container F h0 (VRef l) = Some (l, s) →
    ∃ o, store st !! c = Some o ∧ is_clone (clones st) s o
}.

(** The traversal order, stated on the input heap alone: the occurrences
    of files, with their paths, met by a depth-first walk that takes the
    children of a container in iteration order, stops at a file and does
    not enter a container that is open on the current branch. *)
Fixpoint visits (fuel : nat) (rd : gset loc) (v : value) (path : string)
  : list (value * string) :=
  match fuel with
  | 0 => []
  | S fuel' =>
      if isx v then [(v, path)]
      else
        match container F h0 v with
        | Some (l, s) =>
            if decide (l ∈ rd) then []
            else
              flat_map (λ kv, visits fuel' (rd ∪ {[l]}) kv.2
                                (path_prefix path +:+ kv.1))
                       (entries s)
        | None => []
        end
  end.

Definition record_all (occ : list (value * string))
    (fs : list (value * list string)) : list (value * list string) :=
  fold_left (λ fs o, files_record fs o.1 o.2) occ fs.

(** What a call of [recurse] guarantees when started in a state that
    satisfies the invariant: it returns, the invariant still holds, no
    existing object has changed, the clone table has only grown, the
    result is the clone of the argument, and the file map has recorded
    the occurrences met, in order. *)
Definition rec_spec (rd : gset loc)
    (rec : value → string → state → option (value * state))
    (vis : value → string → list (value * string)) : Prop :=
  ∀ v p st, wf_value h0 v → inv rd st →
    ∃ v' st', rec v p st = Some (v', st') ∧ inv rd st' ∧
      ext (store st) (store st') ∧ clones st ⊆ clones st' ∧
      clone_value (clones st') v = Some v' ∧
      files st' = record_all (vis v p) (files st).

(** The relation between the values reachable from the input [v] and
    their clones. *)
Definition related (st : state) (v a b : value) : Prop :=
  (∃ p, at_path F h0 v p = Some a) ∧ clone_value (clones st) a = Some b.

End Invariant.

(** ** Positions and path strings *)

(** The path string of the position [segs] below a value whose path is
    [path]: each step is [pathPrefix + key] of lines 405, 414 and 424. *)
Fixpoint join_path (path : string) (segs : list string) : string :=
  match segs with
  | [] => path
  | key :: rest => join_path (path_prefix path +:+ key) rest
  end.


(** The containers that [walk] passes through, in order. *)
Fixpoint trail (F : bool) (isx : value → bool) (h : heap) (v : value)
    (p : list string) : list loc :=
  match p with
  | [] => []
  | key :: p' =>
      if isx v then []
      else
        match container F h v with
        | Some (l, s) =>
            match lookup_entry key (entries s) with
            | Some u => l :: trail F isx h u p'
            | None => []
            end
        | None => []
        end
  end.



(** ** Ordinary keys *)

(** [key] is an array index below [n]. *)
Definition index_below (n : N) (key : string) : bool :=
  match Js.array_index key with
  | Some m => bool_decide (m < n)%N
  | None => false
  end.

(** The keys are listed as the own keys of an object are: an array index
    comes after smaller array indices only.  [seen] are the keys listed
    before [keys]. *)
Fixpoint own_key_order (seen keys : list string) : bool :=
  match keys with
  | [] => true
  | key :: rest =>
      match Js.array_index key with
      | Some n => forallb (index_below n) seen
      | None => true
      end && own_key_order (seen ++ [key]) rest
  end.

(** A plain object has ordinary keys when [for ... in] lists its keys in
    own-property order (as it does when every enumerable key is an own key)
    and, if the object is an [Object] instance, no key is [__proto__]. *)
Definition ordinary_object (o : object) : bool :=
  match o with
  | OPlain inst props =>
      negb (inst && bool_decide ("__proto__" ∈ props.*1))
      && own_key_order [] props.*1
  | _ => true
  end.

Definition ordinary (h : heap) : Prop :=
  Forall (λ o, ordinary_object o = true) h.

Global Instance ordinary_dec (h : heap) : Decision (ordinary h).
Proof. unfold ordinary. apply _. Defined.

(** ** Both loops of [Js] as one *)

Definition write_js (s : shape) (clone : loc) (key : string) (v : value)
    (st : Js.jstate) : Js.result Js.jstate :=
  match s with
  | SList _ =>
      Js.Done (Js.JState (with_store (Js.base st)
                            (array_push clone v (store (Js.base st))))
                         (Js.protos st))
  | SPlain _ _ => Js.assign clone key v st
  end.

Fixpoint for_each_js
    (rec : value → string → Js.jstate → option (Js.result (value * Js.jstate)))
    (wr : string → value → Js.jstate → Js.result Js.jstate) (uncloned : bool)
    (pathPrefix : string) (kvs : list (string * value)) (st : Js.jstate)
  : option (Js.result Js.jstate) :=
  match kvs with
  | [] => Some (Js.Done st)
  | (key, v) :: rest =>
      Js.bind (rec v (pathPrefix +:+ key) st) (λ '(c, st1),
        Js.bind (Some (if uncloned then wr key c st1 else Js.Done st1))
          (λ st2, for_each_js rec wr uncloned pathPrefix rest st2))
  end.

(** A state of [recurse] in which no prototype has been replaced. *)
Definition unreplaced (st : state) : Js.jstate := Js.JState st ∅.

(** [recj] does what [rec] does, and replaces no prototype. *)
Definition same_run (F : bool) (isx : value → bool) (h0 : heap)
    (rd : gset loc)
    (rec : value → string → state → option (value * state))
    (recj : value → string → Js.jstate
            → option (Js.result (value * Js.jstate))) : Prop :=
  ∀ v p st v' st', wf_value h0 v → inv F isx h0 rd st →
    rec v p st = Some (v', st') →
    recj v p (unreplaced st) = Some (Js.Done (v', unreplaced st')).

(** An outcome of [extractFiles] as an outcome of [Js.extractFiles] in
    which no prototype has been replaced. *)
Definition own_outcome (o : outcome) : Js.outcome :=
  match o with
  | Throw msg => Js.Throw msg
  | Return clone fs h => Js.Return clone fs h ∅
  end.

(** ** Example inputs *)

Module Example1.
(** [{ a: file1, b: [file1, file2] }] *)
Definition file1 : value := VRef 0.
Definition file2 : value := VRef 1.
Definition h0 : heap :=
  [ OOther "File"; OOther "File";
    OArray [file1; file2];
    OPlain true [("a", file1); ("b", VRef 2)];
    OOther "Function" ].
Definition input : value := VRef 3.
Definition isFile (v : value) : bool :=
  bool_decide (v = file1) || bool_decide (v = file2).
End Example1.

(** A heap with a cycle and a shared container, used to instantiate the
    theorems below: [a = [a, o, o]] and [o = { f: file, n: 1 }]. *)
Module Knot.
Definition file : value := VRef 2.
Definition h : heap :=
  [ OArray [VRef 0; VRef 1; VRef 1];
    OPlain true [("f", file); ("n", VNumber 1)];
    OOther "Blob";
    OOther "Function" ].
Definition isFile (v : value) : bool := bool_decide (v = file).
Definition never (v : value) : bool := false.
End Knot.

(** Inputs with an own enumerable key [__proto__], as [JSON.parse] makes
    them: [literal] is [JSON.parse('{"__proto__": 5, "b": 2}')]; [self] is
    [a] after [a = JSON.parse('{"__proto__": null}'); a.__proto__ = a], an
    assignment to an own data property; in [pair] two such objects hold each
    other; [shared] is [{ "__proto__": c, "x": c }] with [c = [1]]; [loop]
    is [r = { "__proto__": c }] with [c = [r]]. *)
Module ProtoKey.
Definition never (v : value) : bool := false.
Definition literal : heap :=
  [ OPlain true [("__proto__", VNumber 5); ("b", VNumber 2)];
    OOther "Function" ].
Definition self : heap :=
  [ OPlain true [("__proto__", VRef 0)]; OOther "Function" ].
Definition pair : heap :=
  [ OPlain true [("__proto__", VRef 1)];
    OPlain true [("__proto__", VRef 0)];
    OOther "Function" ].
Definition loop : heap :=
  [ OPlain true [("__proto__", VRef 1)]; OArray [VRef 0]; OOther "Function" ].
End ProtoKey.

(** * Proofs *)

(** ** Both loops as one *)

Lemma for_in_for_each rec pp clone u props st :
  for_in rec pp clone u props st = for_each rec (object_set clone) u pp props st.
Proof.
  revert st. induction props as [|[key v] rest IH]; intros st; simpl; [done|].
  destruct (rec v (pp +:+ key) st) as [[c st1]|]; simpl; [apply IH|done].
Qed.

Lemma for_of_for_each rec pp clone u items index st :
  for_of rec pp clone u items index st
  = for_each rec (λ _, array_push clone) u pp (index_entries index items) st.
Proof.
  revert index st. induction items as [|v rest IH]; intros index st; simpl; [done|].
  destruct (rec v (pp +:+ pretty index) st) as [[c st1]|]; simpl; [apply IH|done].
Qed.

(** One unfolding of [recurse], with the two loops seen as [for_each]. *)
Lemma recurse_unfold F isx fuel v path rd st :
  recurse F isx (S fuel) v path rd st =
    if isx v then
      Some (VNull, State (store st) (clones st) (files_record (files st) v path))
    else
      match container F (store st) v with
      | Some (l, s) =>
          let '(clone, uncloned, st1) := get_clone l s st in
          if decide (l ∈ rd) then Some (VRef clone, st1)
          else
            st2 ← for_each (λ v p st, recurse F isx fuel v p (rd ∪ {[l]}) st)
                    (write s clone) uncloned (path_prefix path) (entries s) st1;
            Some (VRef clone, st2)
      | None => Some (v, st)
      end.
Proof.
  simpl. destruct (isx v); [done|].
  destruct (container F (store st) v) as [[l s]|]; [|done].
  destruct (get_clone l s st) as [[clone uncloned] st1].
  destruct (decide (l ∈ rd)); [done|].
  destruct s as [items|inst props]; simpl.
  - by rewrite for_of_for_each.
  - by rewrite for_in_for_each.
Qed.

(** ** Small facts about the tables *)

Lemma prop_set_fresh {A} (props : list (string * A)) key v :
  key ∉ props.*1 → prop_set props key v = props ++ [(key, v)].
Proof.
  induction props as [|[k w] props IH]; simpl; [done|].
  intros Hk. apply not_elem_of_cons in Hk as [Hne Hk].
  destruct (decide (k = key)); [congruence|]. by rewrite IH.
Qed.

Lemma index_entries_keys index items :
  (index_entries index items).*1 = pretty <$> seq index (length items).
Proof.
  revert index. induction items as [|v rest IH]; intros index; simpl; [done|].
  by rewrite IH.
Qed.

Lemma index_entries_values index items :
  (index_entries index items).*2 = items.
Proof.
  revert index. induction items as [|v rest IH]; intros index; simpl; [done|].
  by rewrite IH.
Qed.

Lemma index_entries_NoDup index items :
  NoDup (index_entries index items).*1.
Proof.
  rewrite index_entries_keys. apply NoDup_fmap_2; [apply _|apply NoDup_seq].
Qed.

Lemma write_repr s c k v d (h : heap) :
  h !! c = Some (repr_obj s d) → k ∉ d.*1 →
  write s c k v h = <[c := repr_obj s (d ++ [(k, v)])]> h.
Proof.
  intros Hc Hk. destruct s as [items|inst props]; simpl in *.
  - unfold array_push. rewrite Hc. by rewrite fmap_app.
  - unfold object_set. rewrite Hc. by rewrite prop_set_fresh.
Qed.

Lemma container_ref F (h : heap) v l s :
  container F h v = Some (l, s) → v = VRef l.
Proof.
  destruct v; simpl; try done.
  destruct (h !! l0) as [[| | |]|]; try done; try destruct F; congruence.
Qed.

Lemma container_wf F (h : heap) l l' s :
  wf_heap h → container F h (VRef l) = Some (l', s) →
  Forall (wf_value h) (entries s).*2 ∧ NoDup (entries s).*1.
Proof.
  intros Hwf Hc. simpl in Hc.
  destruct (h !! l) as [o|] eqn:Hl; [|done].
  unfold wf_heap in Hwf. rewrite Forall_lookup in Hwf.
  specialize (Hwf _ _ Hl) as [Hch Hk].
  destruct o as [items|items|inst props|tag]; simpl in *.
  - inversion Hc; subst. simpl. rewrite index_entries_values.
    split; [done|apply index_entries_NoDup].
  - destruct F; [|done]. inversion Hc; subst. simpl.
    rewrite index_entries_values. split; [done|apply index_entries_NoDup].
  - inversion Hc; subst. by simpl.
  - done.
Qed.

Lemma index_entries_length index items :
  length (index_entries index items) = length items.
Proof.
  revert index. induction items as [|v rest IH]; intros index; simpl; [done|].
  by rewrite IH.
Qed.

Lemma index_entries_of_keys (d : list (string * value)) index :
  d.*1 = pretty <$> seq index (length d) → index_entries index d.*2 = d.
Proof.
  revert index. induction d as [|[k v] d IH]; intros index; simpl; [done|].
  intros [= -> Hd]. by rewrite IH.
Qed.

Lemma lookup_entry_elem k u (es : list (string * value)) :
  NoDup es.*1 → (k, u) ∈ es → lookup_entry k es = Some u.
Proof.
  induction es as [|[k' u'] es IH]; simpl; [by intros _ ?%elem_of_nil|].
  intros [Hk Hnd]%NoDup_cons [[= -> ->]|Hin]%elem_of_cons.
  - by rewrite decide_True.
  - rewrite decide_False; [by apply IH|]. intros ->. apply Hk.
    apply list_elem_of_fmap. by exists (k, u).
Qed.

Lemma lookup_entry_Some k u (es : list (string * value)) :
  lookup_entry k es = Some u → (k, u) ∈ es.
Proof.
  induction es as [|[k' u'] es IH]; simpl; [done|].
  case_decide; [intros [= ->]; subst; left|intros ?; right; by apply IH].
Qed.

(** ** The file map *)

Lemma files_get_push fs v p ps f :
  files_get fs v = Some ps →
  files_get (files_push fs v p) f
  = if decide (v = f) then Some (ps ++ [p]) else files_get fs f.
Proof.
  induction fs as [|[k qs] fs IH]; simpl; [done|].
  destruct (decide (k = v)) as [->|Hkv]; simpl.
  - intros [= ->]. by destruct (decide (v = f)).
  - intros Hg. rewrite (IH Hg).
    destruct (decide (k = f)) as [->|?]; [|done]. by rewrite decide_False.
Qed.

Lemma files_get_new fs v p f :
  files_get fs v = None →
  files_get (fs ++ [(v, [p])]) f
  = if decide (v = f) then Some [p] else files_get fs f.
Proof.
  induction fs as [|[k qs] fs IH]; simpl; [done|].
  destruct (decide (k = v)) as [->|Hkv]; [done|]. intros Hg. rewrite (IH Hg).
  destruct (decide (k = f)) as [->|?]; [|done]. by rewrite decide_False.
Qed.

Lemma files_get_record fs v p f :
  files_get (files_record fs v p) f
  = if decide (v = f) then Some (default [] (files_get fs f) ++ [p])
    else files_get fs f.
Proof.
  unfold files_record. destruct (files_get fs v) as [ps|] eqn:Hg.
  - rewrite (files_get_push _ _ _ _ _ Hg). case_decide; [subst|done].
    by rewrite Hg.
  - rewrite (files_get_new _ _ _ _ Hg). case_decide; [subst|done].
    by rewrite Hg.
Qed.

Lemma lookup_entry_Forall2_r (R : value → value → Prop) es1 es2 k y :
  Forall2 (λ x y, x.1 = y.1 ∧ R x.2 y.2) es1 es2 →
  lookup_entry k es2 = Some y → ∃ x, lookup_entry k es1 = Some x ∧ R x y.
Proof.
  induction 1 as [|[k1 x] [k2 y'] es1 es2 [Hk Hxy] _ IH]; simpl in *; [done|].
  subst k2. case_decide; [intros [= ->]; by exists x|done].
Qed.

Lemma Forall2_elem_l {A B} (P Q : A → B → Prop) l k :
  Forall2 P l k → (∀ x y, x ∈ l → P x y → Q x y) → Forall2 Q l k.
Proof.
  induction 1 as [|x y l k Hxy _ IH]; intros HPQ; constructor.
  - apply HPQ; [left|done].
  - apply IH. intros x' y' Hin. apply HPQ. by right.
Qed.

Lemma flat_map_all_nil {A B} (f : A → list B) (l : list A) :
  (∀ x, x ∈ l → f x = []) → flat_map f l = [].
Proof.
  induction l as [|x l IH]; intros Hf; simpl; [done|].
  rewrite Hf by left. apply IH. intros y Hy. apply Hf. by right.
Qed.

Lemma walk_app F isx (h : heap) v p q a :
  walk F isx h v p = Some a → walk F isx h v (p ++ q) = walk F isx h a q.
Proof.
  revert v. induction p as [|k p IH]; intros v; simpl; [by intros [= ->]|].
  destruct (isx v); [done|].
  destruct (container F h v) as [[l s]|]; [|done].
  destruct (lookup_entry k (entries s)) as [x|]; [apply IH|done].
Qed.

Lemma at_path_child F (h : heap) v l s k u :
  wf_heap h → container F h v = Some (l, s) → (k, u) ∈ entries s →
  ∀ p, at_path F h v (k :: p) = at_path F h u p.
Proof.
  intros Hwf Hc Hin p. unfold at_path. cbn [walk]. rewrite Hc.
  pose proof (container_ref _ _ _ _ _ Hc) as ->.
  destruct (container_wf _ _ _ _ _ Hwf Hc) as [_ Hnd].
  by rewrite (lookup_entry_elem _ _ _ Hnd Hin).
Qed.

Lemma at_path_wf F (h : heap) p : ∀ v u,
  wf_heap h → wf_value h v → at_path F h v p = Some u → wf_value h u.
Proof.
  unfold at_path. induction p as [|k p IH]; intros v u Hwf Hv; simpl.
  { by intros [= <-]. }
  destruct (container F h v) as [[l s]|] eqn:Hc; [|done].
  destruct (lookup_entry k (entries s)) as [x|] eqn:Hk; [|done].
  apply IH; [done|].
  pose proof (container_ref _ _ _ _ _ Hc) as ->.
  destruct (container_wf _ _ _ _ _ Hwf Hc) as [Hch _].
  rewrite Forall_forall in Hch. apply Hch.
  apply list_elem_of_fmap. exists (k, x). split; [done|].
  by apply lookup_entry_Some.
Qed.

(** ** Deep equality *)

Lemma deep_equal_refl F (h : heap) v : deep_equal F h v h v.
Proof.
  exists eq. split; [done|]. intros a ? <-.
  destruct (container F h a) as [[l s]|]; [|done]. split.
  - by destruct s.
  - induction (entries s); by constructor.
Qed.

(** Deep equality tells a list from a shorter one, also when both are cut
    from the same cloth. *)
Example deep_equal_length :
  ¬ deep_equal true [OArray [VNull]] (VRef 0) [OArray []] (VRef 0).
Proof.
  intros (R & Hroot & Hstep). specialize (Hstep _ _ Hroot). simpl in Hstep.
  destruct Hstep as [_ Hitems]. inversion Hitems.
Qed.

Example deep_equal_leaf :
  ¬ deep_equal true [OArray [VNumber 1]] (VRef 0) [OArray [VNumber 2]] (VRef 0).
Proof.
  intros (R & Hroot & Hstep). pose proof (Hstep _ _ Hroot) as Hr. simpl in Hr.
  destruct Hr as [_ Hitems]. inversion Hitems as [|x y xs ys [_ Hxy] _]; subst.
  by specialize (Hstep _ _ Hxy).
Qed.

(** ** Correctness of [recurse] *)

Section Correctness.

Variable F : bool.
Variable isx : value → bool.
Variable h0 : heap.
Hypothesis h0_wf : wf_heap h0.

Local Abbreviation clone_value := (clone_value F isx h0).
Local Abbreviation entry_cloned := (entry_cloned F isx h0).
Local Abbreviation is_clone := (is_clone F isx h0).
Local Abbreviation inv := (inv F isx h0).
Local Abbreviation inv_ext := (inv_ext F isx h0).
Local Abbreviation inv_range := (inv_range F isx h0).
Local Abbreviation inv_inj := (inv_inj F isx h0).
Local Abbreviation inv_open := (inv_open F isx h0).
Local Abbreviation inv_done := (inv_done F isx h0).
Local Abbreviation visits := (visits F isx h0).
Local Abbreviation rec_spec := (rec_spec F isx h0).
Local Abbreviation related := (related F isx h0).

Lemma ext_refl h : ext h h.
Proof. by intros j o. Qed.

Lemma ext_trans h1 h2 h3 : ext h1 h2 → ext h2 h3 → ext h1 h3.
Proof. intros H1 H2 j o Hj. eauto. Qed.

Lemma ext_length h h' : ext h h' → length h ≤ length h'.
Proof.
  intros He. destruct (decide (length h = 0)) as [|Hn]; [lia|].
  destruct (lookup_lt_is_Some_2 h (length h - 1)) as [o Ho]; [lia|].
  apply He, lookup_lt_Some in Ho. lia.
Qed.

Lemma ext_app h k : ext h (h ++ k).
Proof. intros j o Hj. by apply lookup_app_l_Some. Qed.

Lemma ext_container h h' v :
  ext h h' → wf_value h v → container F h' v = container F h v.
Proof.
  intros He Hv. destruct v; simpl in *; try done.
  destruct (lookup_lt_is_Some_2 h l Hv) as [o Ho].
  by rewrite Ho, (He _ _ Ho).
Qed.

Lemma clone_value_mono m m' v v' :
  m ⊆ m' → clone_value m v = Some v' → clone_value m' v = Some v'.
Proof.
  unfold clone_value. intros Hm. destruct (isx v); [done|].
  destruct (container F h0 v) as [[l s]|]; [|done].
  destruct (m !! l) as [c|] eqn:Hl; [|done].
  by rewrite (lookup_weaken _ _ _ _ Hl Hm).
Qed.

Lemma entry_cloned_mono m m' x y :
  m ⊆ m' → entry_cloned m x y → entry_cloned m' x y.
Proof. intros Hm [? ?]. split; [done|]. by eapply clone_value_mono. Qed.

Lemma is_clone_mono m m' s o : m ⊆ m' → is_clone m s o → is_clone m' s o.
Proof.
  intros Hm (d & -> & Hd). exists d. split; [done|].
  eapply Forall2_impl; [done|]. intros x y. by apply entry_cloned_mono.
Qed.

Lemma entry_cloned_keys m xs ys :
  Forall2 (entry_cloned m) xs ys → xs.*1 = ys.*1.
Proof.
  induction 1 as [|x y xs ys [Hk _] _ IH]; [done|].
  rewrite !fmap_cons. congruence.
Qed.

Lemma inv_insert rd st l c o :
  inv rd st → clones st !! l = Some c → l ∈ rd →
  inv rd (with_store st (<[c := o]> (store st))).
Proof.
  intros [He Hr Hi Ho Hd] Hl Hin. split; simpl; try done.
  - intros j o' Hj. rewrite list_lookup_insert_ne; [by apply He|].
    apply lookup_lt_Some in Hj. destruct (Hr _ _ Hl). lia.
  - intros l' c' Hl'. rewrite length_insert. by apply Hr.
  - intros l' c' s Hl' Hn Hs. rewrite list_lookup_insert_ne; [by eapply Hd|].
    intros ->. apply Hn. by rewrite (Hi _ _ _ Hl' Hl).
Qed.

Lemma inv_alloc rd st l o :
  inv rd st → clones st !! l = None → l < length h0 →
  inv (rd ∪ {[l]})
      (State (store st ++ [o]) (<[l := length (store st)]> (clones st))
             (files st)).
Proof.
  intros [He Hr Hi Ho Hd] Hl Hlt. pose proof (ext_length _ _ He) as Hle.
  split; simpl.
  - eapply ext_trans; [done|apply ext_app].
  - intros l' c'. rewrite length_app; simpl. rewrite lookup_insert.
    case_decide; [intros [= <-]; subst; lia|]. intros H'. apply Hr in H'. lia.
  - intros l1 l2 c'. rewrite !lookup_insert.
    repeat case_decide; subst; try done.
    + intros [= <-] H'. apply Hr in H'. lia.
    + intros H' [= <-]. apply Hr in H'. lia.
    + apply Hi.
  - intros l' Hin. rewrite lookup_insert. case_decide; [done|].
    apply Ho. set_solver.
  - intros l' c' s Hl' Hn Hs. rewrite lookup_insert_ne in Hl' by set_solver.
    destruct (Hd l' c' s) as (o' & Ho' & Hcl); [done|set_solver|done|].
    exists o'. split; [by apply lookup_app_l_Some|].
    eapply is_clone_mono; [|done]. by apply insert_subseteq.
Qed.

Lemma inv_open_more rd st l c :
  inv rd st → clones st !! l = Some c → inv (rd ∪ {[l]}) st.
Proof.
  intros [He Hr Hi Ho Hd] Hl. split; try done.
  - intros l' [Hin| ->%elem_of_singleton]%elem_of_union; [by apply Ho|done].
  - intros l' c' s Hl' Hn Hs. eapply Hd; [done|set_solver|done].
Qed.

Lemma inv_close rd st l c :
  inv (rd ∪ {[l]}) st → clones st !! l = Some c →
  (∀ l', l' ∈ rd → is_Some (clones st !! l')) →
  (∀ s, container F h0 (VRef l) = Some (l, s) →
        ∃ o, store st !! c = Some o ∧ is_clone (clones st) s o) →
  inv rd st.
Proof.
  intros [He Hr Hi Ho Hd] Hl Hrd Hs. split; try done.
  intros l' c' s Hl' Hn Hs'. destruct (decide (l' = l)) as [->|Hne].
  - assert (c' = c) as -> by congruence. by apply Hs.
  - eapply Hd; [done|set_solver|done].
Qed.

Lemma record_all_app occ1 occ2 fs :
  record_all (occ1 ++ occ2) fs = record_all occ2 (record_all occ1 fs).
Proof. apply fold_left_app. Qed.

(** The loop over the children of the container [l], whose clone is [c].
    [done] are the entries already handled and [d] their clones. *)
Lemma for_each_spec rd rec vis s l c (uncloned : bool) pp :
  rec_spec rd rec vis →
  container F h0 (VRef l) = Some (l, s) → l ∈ rd →
  ∀ rest done d st,
    entries s = done ++ rest →
    inv rd st → clones st !! l = Some c →
    (uncloned = true →
       store st !! c = Some (repr_obj s d) ∧
       Forall2 (entry_cloned (clones st)) done d) →
    ∃ st', for_each rec (write s c) uncloned pp rest st = Some st' ∧
      inv rd st' ∧ clones st ⊆ clones st' ∧
      ext_except c (store st) (store st') ∧
      (uncloned = false → ext (store st) (store st')) ∧
      (uncloned = true →
         ∃ o, store st' !! c = Some o ∧ is_clone (clones st') s o) ∧
      files st'
      = record_all (flat_map (λ kv, vis kv.2 (pp +:+ kv.1)) rest) (files st).
Proof.
  intros Hrec Hs Hl.
  destruct (container_wf F h0 l l s h0_wf Hs) as [Hwf Hnd].
  induction rest as [|[k v] rest IH]; intros done d st Hent Hinv Hc Hun.
  - exists st. rewrite app_nil_r in Hent. subst done. simpl.
    split_and!; try done.
    + by intros j o _ ?.
    + intros _. apply ext_refl.
    + intros Hu. destruct (Hun Hu) as [Hst Hd].
      exists (repr_obj s d). split; [done|]. by exists d.
  - assert (wf_value h0 v) as Hv.
    { rewrite Hent, fmap_app, Forall_app in Hwf. destruct Hwf as [_ Hwf].
      by inversion Hwf. }
    destruct (Hrec v (pp +:+ k) st Hv Hinv)
      as (v' & st1 & Hr & Hinv1 & Hext1 & Hsub1 & Hcv & Hf1).
    assert (clones st1 !! l = Some c) as Hc1 by by eapply lookup_weaken.
    simpl. rewrite Hr. simpl.
    destruct uncloned.
    + destruct (Hun eq_refl) as [Hst Hd].
      assert (k ∉ d.*1) as Hk.
      { rewrite <- (entry_cloned_keys _ _ _ Hd).
        rewrite Hent, fmap_app in Hnd. apply NoDup_app in Hnd as (_ & Hnd & _).
        intros Hin. apply (Hnd _ Hin). simpl. left. }
      apply Hext1 in Hst.
      rewrite (write_repr _ _ _ _ _ _ Hst Hk).
      destruct (IH (done ++ [(k, v)]) (d ++ [(k, v')])
                  (with_store st1 (<[c := repr_obj s (d ++ [(k, v')])]> (store st1))))
        as (st' & Hfe & Hinv' & Hsub' & Hex' & _ & Hcl' & Hf').
      * by rewrite <- app_assoc.
      * by eapply inv_insert.
      * done.
      * intros _. simpl. split.
        -- apply list_lookup_insert_eq. by eapply lookup_lt_Some.
        -- apply Forall2_app; [|by repeat constructor].
           eapply Forall2_impl; [done|]. intros x y. by apply entry_cloned_mono.
      * exists st'. split_and!; try done.
        -- by etrans.
        -- intros j o Hj Ho. apply Hex'; [done|]. simpl.
           rewrite list_lookup_insert_ne by done. by apply Hext1.
        -- simpl in Hf'. by rewrite record_all_app, <- Hf1.
    + destruct (IH (done ++ [(k, v)]) d st1)
        as (st' & Hfe & Hinv' & Hsub' & Hex' & Hext' & _ & Hf'); try done.
      * by rewrite <- app_assoc.
      * exists st'. split_and!; try done.
        -- by etrans.
        -- intros j o Hj Ho. apply Hex'; [done|]. by apply Hext1.
        -- intros _. eapply ext_trans; [done|]. by apply Hext'.
        -- by rewrite record_all_app, <- Hf1.
Qed.

Lemma open_bound rd st : inv rd st → size rd ≤ length h0.
Proof.
  intros Hinv. rewrite <- (size_set_seq (C := gset nat) 0 (length h0)).
  apply subseteq_size. intros l Hl. apply elem_of_set_seq.
  destruct (inv_open _ _ Hinv l Hl) as [c Hc].
  destruct (inv_range _ _ Hinv l c Hc). lia.
Qed.

Lemma size_open (rd : gset loc) l : l ∉ rd → size (rd ∪ {[l]}) = S (size rd).
Proof.
  intros Hl. rewrite size_union by set_solver. rewrite size_singleton. lia.
Qed.

Lemma inv_files rd st fs :
  inv rd st → inv rd (State (store st) (clones st) fs).
Proof. intros [? ? ? ? ?]. by split. Qed.

(** The main lemma: with more fuel than the input heap has objects that
    are not open yet, [recurse] meets its specification. *)
Lemma recurse_spec fuel :
  ∀ rd, length h0 < fuel + size rd →
    rec_spec rd (λ v p st, recurse F isx fuel v p rd st) (visits fuel rd).
Proof.
  induction fuel as [|fuel IH]; intros rd Hfuel v p st Hv Hinv.
  { pose proof (open_bound _ _ Hinv). simpl in Hfuel. lia. }
  rewrite recurse_unfold. simpl visits.
  destruct (isx v) eqn:Hx.
  { eexists _, _. split; [done|]. split_and!; simpl; try done.
    - by apply inv_files.
    - apply ext_refl.
    - unfold clone_value. by rewrite Hx. }
  rewrite (ext_container _ _ _ (inv_ext _ _ Hinv) Hv).
  destruct (container F h0 v) as [[l s]|] eqn:Hcont; cycle 1.
  { exists v, st. split_and!; try done; [apply ext_refl|].
    unfold clone_value. by rewrite Hx, Hcont. }
  pose proof (container_ref _ _ _ _ _ Hcont) as ->.
  assert (∀ m c, m !! l = Some c → clone_value m (VRef l) = Some (VRef c))
    as Hcv.
  { intros m c Hm. unfold clone_value. by rewrite Hx, Hcont, Hm. }
  unfold get_clone. destruct (clones st !! l) as [c|] eqn:Hcl.
  - (* the container has a clone already *)
    destruct (decide (l ∈ rd)) as [Hin|Hnin].
    { exists (VRef c), st. split_and!; try done; [apply ext_refl|by apply Hcv]. }
    destruct (for_each_spec (rd ∪ {[l]}) _ _ s l c false (path_prefix p)
                (IH (rd ∪ {[l]}) ltac:(rewrite size_open by done; lia))
                Hcont ltac:(set_solver) (entries s) [] [] st)
      as (st' & Hfe & Hinv' & Hsub & _ & Hext & _ & Hf); try done.
    { by eapply inv_open_more. }
    rewrite Hfe. simpl. exists (VRef c), st'.
    assert (clones st' !! l = Some c) as Hcl' by by eapply lookup_weaken.
    split_and!; try done.
    + eapply inv_close; [done|done| |].
      * intros l' Hl'. destruct (inv_open _ _ Hinv l' Hl') as [c' Hc'].
        exists c'. by eapply lookup_weaken.
      * intros s' Hs'. assert (s' = s) as -> by congruence.
        destruct (inv_done _ _ Hinv l c s) as (o & Ho & Hcl''); try done.
        exists o. split; [by apply Hext|]. by eapply is_clone_mono.
    + by apply Hext.
    + by apply Hcv.
  - (* first visit: allocate and register the clone, then descend *)
    destruct (decide (l ∈ rd)) as [Hin|Hnin].
    { destruct (inv_open _ _ Hinv l Hin) as [c Hc]. congruence. }
    set (c := length (store st)).
    set (st1 := State (store st ++ [empty_clone s]) (<[l := c]> (clones st))
                      (files st)).
    assert (inv (rd ∪ {[l]}) st1) as Hinv1 by by apply inv_alloc.
    destruct (for_each_spec (rd ∪ {[l]}) _ _ s l c true (path_prefix p)
                (IH (rd ∪ {[l]}) ltac:(rewrite size_open by done; lia))
                Hcont ltac:(set_solver) (entries s) [] [] st1)
      as (st' & Hfe & Hinv' & Hsub & Hex & _ & Hdone & Hf); try done.
    { apply lookup_insert_eq. }
    { intros _. split; [|constructor]. subst st1 c. simpl.
      rewrite lookup_app_r by done. rewrite Nat.sub_diag.
      by destruct s. }
    rewrite Hfe. simpl. exists (VRef c), st'.
    assert (clones st' !! l = Some c) as Hcl'.
    { eapply lookup_weaken; [|done]. apply lookup_insert_eq. }
    assert (clones st ⊆ clones st') as Hsub'.
    { etrans; [|done]. by apply insert_subseteq. }
    split_and!; try done.
    + eapply inv_close; [done|done| |].
      * intros l' Hl'. destruct (inv_open _ _ Hinv l' Hl') as [c' Hc'].
        exists c'. by eapply lookup_weaken.
      * intros s' Hs'. assert (s' = s) as -> by congruence. by apply Hdone.
    + intros j o Hj. apply Hex.
      * apply lookup_lt_Some in Hj. subst c. lia.
      * by apply lookup_app_l_Some.
    + by apply Hcv.
Qed.

(** *** The whole traversal *)

Lemma inv_init : inv ∅ (State h0 ∅ []).
Proof.
  split; simpl; try done. apply ext_refl.
Qed.

Lemma recurse_top fuel v path :
  wf_value h0 v → length h0 < fuel →
  ∃ clone st,
    recurse F isx fuel v path ∅ (State h0 ∅ []) = Some (clone, st) ∧
    inv ∅ st ∧ clone_value (clones st) v = Some clone ∧
    files st = record_all (visits fuel ∅ v path) [].
Proof.
  intros Hv Hfuel.
  destruct (recurse_spec fuel ∅ ltac:(lia) v path (State h0 ∅ []) Hv inv_init)
    as (clone & st & Hr & Hinv & _ & _ & Hcv & Hf).
  by exists clone, st.
Qed.

(** *** The clone, read along paths *)

Lemma repr_container m s d (h : heap) c :
  Forall2 (entry_cloned m) (entries s) d → h !! c = Some (repr_obj s d) →
  ∃ s', container F h (VRef c) = Some (c, s') ∧ entries s' = d ∧
        same_kind s s'.
Proof.
  intros Hd Hc. simpl. rewrite Hc.
  destruct s as [items|inst props]; simpl in *.
  - exists (SList d.*2). split_and!; try done. simpl.
    apply index_entries_of_keys.
    rewrite <- (entry_cloned_keys _ _ _ Hd), index_entries_keys.
    apply Forall2_length in Hd. rewrite <- Hd.
    by rewrite index_entries_length.
  - by exists (SPlain inst d).
Qed.

Lemma lookup_entry_cloned m es d k u :
  Forall2 (entry_cloned m) es d → lookup_entry k es = Some u →
  ∃ u', lookup_entry k d = Some u' ∧ clone_value m u = Some u'.
Proof.
  induction 1 as [|[k1 x] [k2 y] es d [Hk Hxy] _ IH]; simpl in *; [done|].
  subst k2. case_decide; [intros [= ->]; by exists y|done].
Qed.

Lemma clone_value_container m a a' l s :
  isx a = false → container F h0 a = Some (l, s) →
  clone_value m a = Some a' → ∃ c, m !! l = Some c ∧ a' = VRef c.
Proof.
  unfold clone_value. intros -> ->. destruct (m !! l) as [c|]; [|done].
  intros [= <-]. by exists c.
Qed.

(** A container that has been cloned and closed, seen in the final heap. *)
Lemma cloned_container st a l s c :
  inv ∅ st → container F h0 a = Some (l, s) → clones st !! l = Some c →
  ∃ s' d, container F (store st) (VRef c) = Some (c, s') ∧
          same_kind s s' ∧ entries s' = d ∧ store st !! c = Some (repr_obj s d) ∧
          Forall2 (entry_cloned (clones st)) (entries s) d ∧
          length h0 ≤ c.
Proof.
  intros Hinv Ha Hc. pose proof (container_ref _ _ _ _ _ Ha) as ->.
  destruct (inv_done _ _ Hinv l c s Hc) as (o & Ho & d & -> & Hd);
    [set_solver|done|].
  destruct (repr_container _ _ _ _ _ Hd Ho) as (s' & Hs' & He & Hk).
  exists s', d. split_and!; try done.
  destruct (inv_range _ _ Hinv l c Hc). lia.
Qed.

Lemma walk_clone st :
  inv ∅ st →
  ∀ p a a' u,
    clone_value (clones st) a = Some a' → walk F isx h0 a p = Some u →
    ∃ u', at_path F (store st) a' p = Some u' ∧
          clone_value (clones st) u = Some u'.
Proof.
  intros Hinv. induction p as [|k p IH]; intros a a' u Ha; simpl.
  { intros [= <-]. by exists a'. }
  destruct (isx a) eqn:Hx; [done|].
  destruct (container F h0 a) as [[l s]|] eqn:Hc; [|done].
  destruct (lookup_entry k (entries s)) as [x|] eqn:Hk; [|done].
  intros Hw.
  destruct (clone_value_container _ _ _ _ _ Hx Hc Ha) as (c & Hl & ->).
  destruct (cloned_container _ _ _ _ _ Hinv Hc Hl)
    as (s' & d & Hs' & _ & He & _ & Hd & _).
  destruct (lookup_entry_cloned _ _ _ _ _ Hd Hk) as (x' & Hk' & Hx').
  destruct (IH x x' u Hx' Hw) as (u' & Hu' & Hcu).
  exists u'. split; [|done].
  unfold at_path. cbn [walk]. rewrite Hs', He, Hk'. done.
Qed.

(** *** Inputs without files *)

Lemma visits_nil fuel : ∀ rd v path,
  (∀ p u, at_path F h0 v p = Some u → isx u = false) →
  visits fuel rd v path = [].
Proof.
  induction fuel as [|fuel IH]; intros rd v path Hno; simpl; [done|].
  rewrite (Hno [] v eq_refl).
  destruct (container F h0 v) as [[l s]|] eqn:Hc; [|done].
  case_decide; [done|]. apply flat_map_all_nil. intros [k u] Hin. simpl.
  apply IH. intros p x Hp. apply (Hno (k :: p)).
  by rewrite (at_path_child _ _ _ _ _ _ _ h0_wf Hc Hin).
Qed.

Lemma related_step st v :
  inv ∅ st → wf_value h0 v →
  (∀ p u, at_path F h0 v p = Some u → isx u = false) →
  ∀ a b, related st v a b →
    match container F h0 a, container F (store st) b with
    | Some (_, s1), Some (_, s2) =>
        same_kind s1 s2 ∧
        Forall2 (λ x y, x.1 = y.1 ∧ related st v x.2 y.2)
                (entries s1) (entries s2)
    | None, None => a = b
    | _, _ => False
    end ∧
    (is_Some (container F (store st) b) → ∃ c, b = VRef c ∧ length h0 ≤ c).
Proof.
  intros Hinv Hv Hno a b [[p Hp] Hcv].
  pose proof (Hno _ _ Hp) as Hx.
  pose proof (at_path_wf _ _ _ _ _ h0_wf Hv Hp) as Ha.
  destruct (container F h0 a) as [[l s]|] eqn:Hc.
  - destruct (clone_value_container _ _ _ _ _ Hx Hc Hcv) as (c & Hl & ->).
    destruct (cloned_container _ _ _ _ _ Hinv Hc Hl)
      as (s' & d & Hs' & Hkind & He & _ & Hd & Hge).
    rewrite Hs'. split; [|intros _; by exists c]. split; [done|].
    rewrite He. eapply Forall2_elem_l; [exact Hd|].
    intros [k x] [k' y] Hin [Hk Hxy]. simpl in *. split; [done|].
    split; [|done]. exists (p ++ [k]).
    pose proof (at_path_child _ _ _ _ _ _ _ h0_wf Hc Hin []) as Hch.
    unfold at_path in *. by rewrite (walk_app _ _ _ _ _ _ _ Hp), Hch.
  - unfold clone_value in Hcv. rewrite Hx, Hc in Hcv.
    injection Hcv as <-.
    rewrite (ext_container _ _ _ (inv_ext _ _ Hinv) Ha), Hc.
    split; [done|]. by intros [? ?].
Qed.

Lemma related_back st v :
  inv ∅ st → wf_value h0 v →
  (∀ p u, at_path F h0 v p = Some u → isx u = false) →
  ∀ p a b b', related st v a b → at_path F (store st) b p = Some b' →
    ∃ a', related st v a' b'.
Proof.
  intros Hinv Hv Hno. unfold at_path.
  induction p as [|k p IH]; intros a b b' Hab; simpl.
  { intros [= <-]. by exists a. }
  destruct (related_step _ _ Hinv Hv Hno _ _ Hab) as [Hstep _].
  destruct (container F (store st) b) as [[c s2]|]; [|done].
  destruct (container F h0 a) as [[l s1]|]; [|done].
  destruct Hstep as [_ Hch].
  destruct (lookup_entry k (entries s2)) as [y|] eqn:Hk; [|done].
  destruct (lookup_entry_Forall2_r _ _ _ _ _ Hch Hk) as (x & _ & Hxy).
  by apply IH with x.
Qed.

End Correctness.

(** ** [extractFiles] on a well-formed call *)


Lemma extract_ok F isx (h : heap) v lf path fuel :
  wf_heap h → wf_value h v → length h < fuel →
  ∃ clone st,
    extractFiles F fuel h [AVal v; AFun lf isx; AVal (VString path)]
    = Some (Return clone (files st) (store st)) ∧
    inv F isx h ∅ st ∧ clone_value F isx h (clones st) v = Some clone ∧
    files st = record_all (visits F isx h fuel ∅ v path) [].
Proof.
  intros Hwf Hv Hfuel.
  destruct (recurse_top F isx h Hwf fuel v path Hv Hfuel)
    as (clone & st & Hr & Hinv & Hcv & Hf).
  exists clone, st. split; [|done]. simpl. by rewrite Hr.
Qed.

(** ** The input is never written *)



(** ** Termination on cyclic inputs *)

(** With every key written as an own property, [extractFiles] returns on
    every well-formed input, cyclic ones included, as soon as the fuel
    exceeds the number of objects of the input heap.  A container that is
    open on the current branch is not descended into again: the call returns
    its registered clone and leaves the state alone.  The clone is
    registered by [get_clone], before the loop over the children starts.
    [terminates_on_ordinary_cycles] carries the first part over to
    [Js.extractFiles]. *)
Lemma extractFiles_terminates_on_cycles F isx (h : heap) v lf path fuel :
  wf_heap h → wf_value h v → length h < fuel →
  (∃ clone fs h',
     extractFiles F fuel h [AVal v; AFun lf isx; AVal (VString path)]
     = Some (Return clone fs h')) ∧
  (∀ n l s c p (rd : gset loc) st,
     isx (VRef l) = false → container F (store st) (VRef l) = Some (l, s) →
     clones st !! l = Some c → l ∈ rd →
     recurse F isx (S n) (VRef l) p rd st = Some (VRef c, st)) ∧
  (∀ l s st, clones (get_clone l s st).2 !! l = Some (get_clone l s st).1.1).
Proof.
  intros Hwf Hv Hfuel. split_and!.
  - destruct (extract_ok F isx h v lf path fuel Hwf Hv Hfuel)
      as (clone & st & Hr & _).
    by exists clone, (files st), (store st).
  - intros n l s c p rd st Hx Hc Hl Hin. rewrite recurse_unfold, Hx, Hc.
    unfold get_clone. rewrite Hl. by rewrite decide_True.
  - intros l s st. unfold get_clone.
    destruct (clones st !! l) as [c|] eqn:Hl; simpl; [done|].
    apply lookup_insert_eq.
Qed.

(** ** Inputs without files *)

(** With every key written as an own property: when the classifier rejects
    every value reachable from the input, the file map is empty and the
    clone is deep-structurally equal to the input; every container reachable
    in the clone is an object allocated by the call.
    [no_files_structural_copy_ordinary] carries this over to
    [Js.extractFiles]. *)
Lemma no_files_structural_copy F isx (h : heap) v lf path fuel :
  wf_heap h → wf_value h v →
  (∀ p u, at_path F h v p = Some u → isx u = false) →
  length h < fuel →
  ∃ clone h',
    extractFiles F fuel h [AVal v; AFun lf isx; AVal (VString path)]
    = Some (Return clone [] h') ∧
    deep_equal F h v h' clone ∧
    (∀ p c, at_path F h' clone p = Some (VRef c) →
            is_Some (container F h' (VRef c)) → length h ≤ c).
Proof.
  intros Hwf Hv Hno Hfuel.
  destruct (extract_ok F isx h v lf path fuel Hwf Hv Hfuel)
    as (clone & st & Hr & Hinv & Hcv & Hf).
  rewrite (visits_nil F isx h Hwf fuel ∅ v path Hno) in Hf. simpl in Hf.
  rewrite Hf in Hr. exists clone, (store st).
  assert (related F isx h st v v clone) as Hroot.
  { split; [by exists []|done]. }
  split_and!; [done| |].
  - exists (related F isx h st v). split; [done|]. intros a b Hab.
    by destruct (related_step F isx h Hwf st v Hinv Hv Hno a b Hab) as [Hstep _].
  - intros p c Hp Hc.
    destruct (related_back F isx h Hwf st v Hinv Hv Hno p v clone (VRef c)
                Hroot Hp) as (a' & Hrel).
    destruct (related_step F isx h Hwf st v Hinv Hv Hno a' (VRef c) Hrel)
      as [_ Hfresh].
    destruct (Hfresh Hc) as (c' & [= <-] & Hge). done.
Qed.

(** ** Shared and cyclic references in the clone *)

(** With every key written as an own property: a container of the input
    that is reached along two paths is replaced at both places of the clone
    by one and the same new object; that object has the keys of the
    original, once each, although the container was traversed once per
    path.  [shared_container_single_clone_ordinary] carries this over to
    [Js.extractFiles]. *)
Lemma shared_container_single_clone F isx (h : heap) v lf path fuel :
  wf_heap h → wf_value h v → length h < fuel →
  ∃ clone fs h',
    extractFiles F fuel h [AVal v; AFun lf isx; AVal (VString path)]
    = Some (Return clone fs h') ∧
    ∀ p1 p2 l s,
      walk F isx h v p1 = Some (VRef l) → walk F isx h v p2 = Some (VRef l) →
      isx (VRef l) = false → container F h (VRef l) = Some (l, s) →
      ∃ c s',
        at_path F h' clone p1 = Some (VRef c) ∧
        at_path F h' clone p2 = Some (VRef c) ∧
        length h ≤ c ∧
        container F h' (VRef c) = Some (c, s') ∧
        same_kind s s' ∧ (entries s').*1 = (entries s).*1.
Proof.
  intros Hwf Hv Hfuel.
  destruct (extract_ok F isx h v lf path fuel Hwf Hv Hfuel)
    as (clone & st & Hr & Hinv & Hcv & _).
  exists clone, (files st), (store st). split; [done|].
  intros p1 p2 l s Hp1 Hp2 Hx Hc.
  destruct (walk_clone F isx h Hwf st Hinv p1 v clone _ Hcv Hp1)
    as (u1 & Hu1 & Hc1).
  destruct (walk_clone F isx h Hwf st Hinv p2 v clone _ Hcv Hp2)
    as (u2 & Hu2 & Hc2).
  destruct (clone_value_container F isx h _ _ _ _ _ Hx Hc Hc1) as (c & Hl & ->).
  destruct (clone_value_container F isx h _ _ _ _ _ Hx Hc Hc2) as (c' & Hl' & ->).
  assert (c' = c) as -> by congruence.
  destruct (cloned_container F isx h Hwf st _ _ _ _ Hinv Hc Hl)
    as (s' & d & Hs' & Hkind & He & _ & Hd & Hge).
  exists c, s'. split_and!; try done.
  rewrite He. symmetry. by eapply entry_cloned_keys.
Qed.

(** With every key written as an own property, a container that contains
    itself keeps its cycle in the clone: following in the clone the path
    that leads in the input from the container back to itself ends at the
    clone of that container, a new object.
    [cycle_preserved_in_clone_ordinary] carries this over to
    [Js.extractFiles]. *)
Lemma cycle_preserved_in_clone F isx (h : heap) v lf path fuel :
  wf_heap h → wf_value h v → length h < fuel →
  ∃ clone fs h',
    extractFiles F fuel h [AVal v; AFun lf isx; AVal (VString path)]
    = Some (Return clone fs h') ∧
    ∀ q p l,
      walk F isx h v q = Some (VRef l) → p ≠ [] →
      walk F isx h (VRef l) p = Some (VRef l) →
      ∃ c,
        at_path F h' clone q = Some (VRef c) ∧
        at_path F h' (VRef c) p = Some (VRef c) ∧
        length h ≤ c.
Proof.
  intros Hwf Hv Hfuel.
  destruct (extract_ok F isx h v lf path fuel Hwf Hv Hfuel)
    as (clone & st & Hr & Hinv & Hcv & _).
  exists clone, (files st), (store st). split; [done|].
  intros q p l Hq Hne Hp.
  assert (isx (VRef l) = false ∧ ∃ s, container F h (VRef l) = Some (l, s))
    as [Hx [s Hc]].
  { destruct p as [|k p]; [done|]. cbn [walk] in Hp.
    destruct (isx (VRef l)); [done|]. split; [done|].
    destruct (container F h (VRef l)) as [[l' s]|] eqn:Hc; [|done].
    pose proof (container_ref _ _ _ _ _ Hc) as [= <-]. by exists s. }
  destruct (walk_clone F isx h Hwf st Hinv q v clone _ Hcv Hq)
    as (u1 & Hu1 & Hc1).
  destruct (clone_value_container F isx h _ _ _ _ _ Hx Hc Hc1) as (c & Hl & ->).
  destruct (walk_clone F isx h Hwf st Hinv p (VRef l) (VRef c) _ Hc1 Hp)
    as (u2 & Hu2 & Hc2).
  destruct (clone_value_container F isx h _ _ _ _ _ Hx Hc Hc2) as (c' & Hl' & ->).
  assert (c' = c) as -> by congruence.
  exists c. split_and!; try done.
  destruct (inv_range _ _ _ _ _ Hinv l c Hl). lia.
Qed.

(** ** The recorded paths *)

Lemma paths_of_cons f v p occ :
  paths_of f ((v, p) :: occ)
  = if decide (v = f) then p :: paths_of f occ else paths_of f occ.
Proof.
  unfold paths_of. rewrite filter_cons. simpl. by destruct (decide (v = f)).
Qed.

Lemma files_get_record_all occ : ∀ fs f,
  files_get (record_all occ fs) f
  = match files_get fs f, paths_of f occ with
    | None, [] => None
    | o, qs => Some (default [] o ++ qs)
    end.
Proof.
  induction occ as [|[v p] occ IH]; intros fs f.
  { simpl. destruct (files_get fs f); simpl; [by rewrite app_nil_r|done]. }
  unfold record_all in *. simpl. rewrite IH, files_get_record, paths_of_cons.
  destruct (decide (v = f)) as [->|Hne]; [|done].
  destruct (files_get fs f) as [ps|]; simpl.
  - by rewrite <- app_assoc.
  - done.
Qed.



(** The traversal of the cyclic heap meets the file twice, once through
    each reference to the shared object, and not at all through the cycle. *)
Example knot_visits :
  visits true Knot.isFile Knot.h 5 ∅ (VRef 0) ""
  = [(Knot.file, "1.f"); (Knot.file, "2.f")].
Proof. vm_compute. reflexivity. Qed.

Example knot_run :
  extractFiles true 5 Knot.h
    [AVal (VRef 0); AFun 3 Knot.isFile; AVal (VString "")]
  = Some (Return (VRef 4) [(Knot.file, ["1.f"; "2.f"])]
            (Knot.h ++ [ OArray [VRef 4; VRef 5; VRef 5];
                         OPlain true [("f", VNull); ("n", VNumber 1)] ])).
Proof. vm_compute. reflexivity. Qed.

(** ** The documented example *)

(** C1. For [{ a: file1, b: [file1, file2] }] and the empty prefix, the
    clone is [{ a: null, b: [null, null] }] and the file map holds, in this
    order, [file1] with ["a"; "b.0"] and [file2] with ["b.1"]; no path
    starts with a separator. *)
Theorem extractFiles_documented_example F n :
  extractFiles F (3 + n) Example1.h0
    [AVal Example1.input; AFun 4 Example1.isFile; AVal (VString "")]
  = Some (Return (VRef 5)
            [(Example1.file1, ["a"; "b.0"]); (Example1.file2, ["b.1"])]
            (Example1.h0 ++ [ OPlain true [("a", VNull); ("b", VRef 6)];
                              OArray [VNull; VNull] ])).
Proof. destruct F; vm_compute; reflexivity. Qed.

(** The same input with the prefix of the source documentation. *)
Example extractFiles_documented_prefix :
  extractFiles true 3 Example1.h0
    [AVal Example1.input; AFun 4 Example1.isFile; AVal (VString "prefix")]
  = Some (Return (VRef 5)
            [(Example1.file1, ["prefix.a"; "prefix.b.0"]);
             (Example1.file2, ["prefix.b.1"])]
            (Example1.h0 ++ [ OPlain true [("a", VNull); ("b", VRef 6)];
                              OArray [VNull; VNull] ])).
Proof. vm_compute. reflexivity. Qed.

(** ** The argument contract *)

Lemma path_argument_None (o : option arg) :
  path_argument o = None ↔
  ∃ a, o = Some a ∧ a ≠ AVal VUndefined ∧ ∀ s, a ≠ AVal (VString s).
Proof.
  split.
  - destruct o as [[[]|]|]; simpl; try done; intros _; eexists; by split_and!.
  - intros (a & -> & Hu & Hs). destruct a as [[]|]; simpl; try done.
    by destruct (Hs s).
Qed.

(** Every call either violates the contract and throws whatever the fuel,
    or is a call [extractFiles(value, isExtractable, path?)] with a callable
    classifier and a string (or defaulted) path. *)
Lemma contract_cases F (h : heap) args :
  (contract_violation args ∧
   ∀ fuel, ∃ msg, extractFiles F fuel h args = Some (Throw msg)) ∨
  (¬ contract_violation args ∧
   ∃ a lf isx rest path,
     args = a :: AFun lf isx :: rest ∧ path_argument (rest !! 0) = Some path).
Proof.
  destruct args as [|a [|[w|lf isx] rest]].
  - left. split; [by left|]. intros fuel. by eexists.
  - left. split; [right; left; by intros l f|]. intros fuel. by eexists.
  - left. split; [right; left; by intros l f|]. intros fuel. by eexists.
  - destruct (path_argument (rest !! 0)) as [path|] eqn:Hp.
    + right. split; [|by exists a, lf, isx, rest, path].
      intros [Hv|[Hc|Hs]]; [done|by apply (Hc lf isx)|].
      apply path_argument_None in Hs. simpl in Hs. congruence.
    + left. split.
      * right; right. by apply path_argument_None in Hp.
      * intros fuel. simpl. rewrite Hp. by eexists.
Qed.

(** With every key written as an own property, [extractFiles] raises
    exactly when the value is omitted, the classifier is not callable or
    the path is not a string; it does so whatever the fuel, that is before
    any traversal.  Every other call on a well-formed heap, cyclic or not,
    returns a result.  [throws_iff_contract_violation_ordinary] carries this
    over to [Js.extractFiles]. *)
Lemma extractFiles_throws_iff_contract_violation F (h : heap) args fuel :
  wf_heap h → (∀ a, args !! 0 = Some a → wf_value h (arg_value a)) →
  length h < fuel →
  ((∃ msg, extractFiles F fuel h args = Some (Throw msg))
   ↔ contract_violation args) ∧
  (contract_violation args →
   ∀ fuel', ∃ msg, extractFiles F fuel' h args = Some (Throw msg)) ∧
  (¬ contract_violation args →
   ∃ clone fs h', extractFiles F fuel h args = Some (Return clone fs h')).
Proof.
  intros Hwf Hv Hfuel.
  destruct (contract_cases F h args)
    as [[Hviol Hthrow]|[Hok (a & lf & isx & rest & path & -> & Hp)]].
  { split_and!; [by split|done|done]. }
  assert (∃ clone fs h',
            extractFiles F fuel h (a :: AFun lf isx :: rest)
            = Some (Return clone fs h')) as (clone & fs & h' & Hr).
  { destruct (recurse_top F isx h Hwf fuel (arg_value a) path
                (Hv a eq_refl) Hfuel) as (clone & st & Hr & _).
    exists clone, (files st), (store st). simpl. rewrite Hp. simpl.
    by rewrite Hr. }
  split_and!.
  - split; [|done]. intros [msg Hm]. congruence.
  - done.
  - intros _. by exists clone, fs, h'.
Qed.

(** The three messages, and a defaulted path. *)
Example throws_without_arguments F fuel (h : heap) :
  extractFiles F fuel h [] = Some (Throw "Argument 1 `value` is required.").
Proof. reflexivity. Qed.

Example throws_on_classifier F fuel (h : heap) v w :
  extractFiles F fuel h [AVal v; AVal w]
  = Some (Throw "Argument 2 `isExtractable` must be a function.").
Proof. reflexivity. Qed.

Example throws_on_path F fuel (h : heap) v lf isx n :
  extractFiles F fuel h [AVal v; AFun lf isx; AVal (VNumber n)]
  = Some (Throw "Argument 3 `path` must be a string.").
Proof. reflexivity. Qed.

Example default_path :
  extractFiles true 3 Example1.h0 [AVal Example1.input; AFun 4 Example1.isFile]
  = extractFiles true 3 Example1.h0
      [AVal Example1.input; AFun 4 Example1.isFile; AVal (VString "")].
Proof. reflexivity. Qed.

(** C9. Passing [undefined] or [null] explicitly as the value does not
    raise: with a classifier that rejects it, the call returns that very
    value as clone and an empty file map.  The error about the value is
    raised by the calls without any argument, and by no other call. *)
Theorem explicit_undefined_value_accepted F fuel (h : heap) lf isx path v :
  v = VUndefined ∨ v = VNull → isx v = false →
  extractFiles F (S fuel) h [AVal v; AFun lf isx; AVal (VString path)]
  = Some (Return v [] h) ∧
  ∀ fuel' args,
    extractFiles F fuel' h args = Some (Throw "Argument 1 `value` is required.")
    ↔ args = [].
Proof.
  intros Hv Hx. split.
  - unfold extractFiles. simpl lookup. cbn [path_argument].
    rewrite recurse_unfold. simpl. rewrite Hx. by destruct Hv as [-> | ->].
  - intros fuel' args. split; [|by intros ->].
    destruct args as [|a rest]; [done|]. simpl.
    destruct (rest !! 0) as [[w|lf' isx']|]; [done| |done].
    destruct (path_argument (rest !! 1)); [|done].
    by destruct (recurse F isx' fuel' (arg_value a) s ∅ (State h ∅ []))
      as [[c st]|].
Qed.

Lemma explicit_undefined_value_accepted_witness :
  extractFiles true 1 Knot.h [AVal VUndefined; AFun 3 Knot.isFile; AVal (VString "")]
  = Some (Return VUndefined [] Knot.h) ∧
  ∀ fuel' args,
    extractFiles true fuel' Knot.h args
    = Some (Throw "Argument 1 `value` is required.")
    ↔ args = [].
Proof.
  apply (explicit_undefined_value_accepted true 0 Knot.h 3 Knot.isFile ""
           VUndefined).
  - left. reflexivity.
  - reflexivity.
Defined.

(** ** The keys of the file map are distinct *)

Lemma files_push_keys fs v p : (files_push fs v p).*1 = fs.*1.
Proof.
  induction fs as [|[k ps] fs IH]; [done|]. cbn [files_push].
  destruct (decide (k = v)); rewrite !fmap_cons; [done|]. by rewrite IH.
Qed.

Lemma files_get_None fs v : files_get fs v = None → v ∉ fs.*1.
Proof.
  induction fs as [|[k ps] fs IH]; [intros _; apply not_elem_of_nil|].
  cbn [files_get]. destruct (decide (k = v)); [done|]. intros Hg.
  rewrite fmap_cons. apply not_elem_of_cons. split; [by intros ->|by apply IH].
Qed.

Lemma files_record_NoDup fs v p :
  NoDup fs.*1 → NoDup (files_record fs v p).*1.
Proof.
  intros Hnd. unfold files_record. destruct (files_get fs v) eqn:Hg.
  - by rewrite files_push_keys.
  - rewrite fmap_app. simpl. apply NoDup_app. split_and!; [done| |].
    + intros x Hx ->%list_elem_of_singleton. by apply (files_get_None _ _ Hg).
    + apply NoDup_singleton.
Qed.

Lemma for_each_files (P : list (value * list string) → Prop) rec wr u pp :
  (∀ v p st r st', rec v p st = Some (r, st') → P (files st) → P (files st')) →
  ∀ kvs st st',
    for_each rec wr u pp kvs st = Some st' → P (files st) → P (files st').
Proof.
  intros Hrec. induction kvs as [|[k v] kvs IH]; intros st st'; simpl.
  { by intros [= <-]. }
  destruct (rec v (pp +:+ k) st) as [[c st1]|] eqn:Hr; simpl; [|done].
  intros Hfe HP. apply (IH _ _ Hfe). destruct u; simpl; by eapply Hrec.
Qed.

Lemma recurse_files_NoDup F isx fuel : ∀ v p rd st r st',
  recurse F isx fuel v p rd st = Some (r, st') →
  NoDup (files st).*1 → NoDup (files st').*1.
Proof.
  induction fuel as [|fuel IH]; intros v p rd st r st'; [done|].
  rewrite recurse_unfold. destruct (isx v).
  { intros [= <- <-] Hnd. simpl. by apply files_record_NoDup. }
  destruct (container F (store st) v) as [[l s]|]; [|by intros [= <- <-]].
  destruct (get_clone l s st) as [[clone uncloned] st1] eqn:Hg.
  assert (files st1 = files st) as Hf.
  { unfold get_clone in Hg. destruct (clones st !! l); by simplify_eq. }
  destruct (decide (l ∈ rd)); [intros [= <- <-]; by rewrite Hf|].
  destruct (for_each _ _ _ _ _ st1) as [st2|] eqn:Hfe; simpl; [|done].
  intros [= <- <-] Hnd. rewrite <- Hf in Hnd.
  eapply (for_each_files (λ fs, NoDup fs.*1)); [|done|done].
  intros v' p' st0 r' st0'. apply IH.
Qed.

(** ** The multipart form *)

Section UploadFacts.

Variable JSON_stringify : heap → value → string.
Variable JSON_stringify_map : list (string * list string) → string.
Variable file_name : value → option string.

Local Abbreviation formDataAppendFile := (formDataAppendFile file_name).
Local Abbreviation upload_body :=
  (upload_body JSON_stringify JSON_stringify_map).
Local Abbreviation request := (request JSON_stringify JSON_stringify_map).

Lemma build_map_go (fs : list (value * list string)) : ∀ i map,
  map.*1 = pretty <$> seq 1 i →
  fold_left map_step fs (i, map)
  = (i + length fs, map ++ zip (pretty <$> seq (S i) (length fs)) fs.*2).
Proof.
  induction fs as [|[f ps] fs IH]; intros i map Hkeys.
  { simpl. by rewrite Nat.add_0_r, app_nil_r. }
  cbn [fold_left].
  assert (map_step (i, map) (f, ps) = (S i, map ++ [(pretty (S i), ps)])) as ->.
  { unfold map_step. simpl. rewrite prop_set_fresh; [done|].
    rewrite Hkeys. intros (j & Hj & Hin)%list_elem_of_fmap.
    apply (inj pretty) in Hj. subst j. apply elem_of_seq in Hin. lia. }
  rewrite IH.
  - rewrite <- app_assoc. simpl. f_equal. lia.
  - by rewrite fmap_app, Hkeys, seq_S, fmap_app.
Qed.

Lemma append_files_go (appender : form → string → value → form)
    (fs : list (value * list string)) : ∀ i (body : form),
  fold_left (append_step appender) fs (i, body)
  = (i + length fs,
     fold_left (λ b kf, appender b kf.1 kf.2)
               (zip (pretty <$> seq (S i) (length fs)) fs.*1) body).
Proof.
  induction fs as [|[f ps] fs IH]; intros i body.
  { simpl. by rewrite Nat.add_0_r. }
  cbn [fold_left]. unfold append_step at 2. cbn [fst snd].
  rewrite IH. simpl. f_equal. lia.
Qed.

Lemma default_appender_fold (kfs : list (string * value)) : ∀ body : form,
  fold_left (λ b kf, formDataAppendFile b kf.1 kf.2) kfs body
  = body ++ ((λ kf, (kf.1, FBlob kf.2 (file_name kf.2))) <$> kfs).
Proof.
  induction kfs as [|[k f] kfs IH]; intros body; simpl.
  { by rewrite app_nil_r. }
  rewrite IH. unfold formDataAppendFile. simpl.
  destruct (file_name f); by rewrite <- app_assoc.
Qed.

(** C7. When [extractFiles] returns a non-empty file map, the map object
    has the keys ["1"], ["2"], ... in the order of the file map, each with
    the path list of its entry, and each file of the file map (they are
    distinct) is appended under the same index; with the default appender
    the form is the two text fields followed by one field per file. *)
Theorem multipart_map_and_parts_indexed F fuel (h : heap) body lf isx appender
    clone fs h' :
  extractFiles F fuel h [AVal body; AFun lf isx; AVal (VString "")]
  = Some (Return clone fs h') →
  fs ≠ [] →
  NoDup fs.*1 ∧
  build_map fs = zip (pretty <$> seq 1 (length fs)) fs.*2 ∧
  request F fuel h body lf isx appender
  = Some (Multipart
            (fold_left (λ b kf, appender b kf.1 kf.2)
               (zip (pretty <$> seq 1 (length fs)) fs.*1)
               [("operations", FString (JSON_stringify h' clone));
                ("map", FString (JSON_stringify_map
                                   (zip (pretty <$> seq 1 (length fs)) fs.*2)))])) ∧
  request F fuel h body lf isx formDataAppendFile
  = Some (Multipart
            ([("operations", FString (JSON_stringify h' clone));
              ("map", FString (JSON_stringify_map
                                 (zip (pretty <$> seq 1 (length fs)) fs.*2)))]
             ++ ((λ kf, (kf.1, FBlob kf.2 (file_name kf.2)))
                   <$> zip (pretty <$> seq 1 (length fs)) fs.*1))).
Proof.
  intros Hr Hne.
  assert (build_map fs = zip (pretty <$> seq 1 (length fs)) fs.*2) as Hmap.
  { unfold build_map. by rewrite (build_map_go fs 0 []). }
  assert (∀ appender,
    request F fuel h body lf isx appender
    = Some (Multipart
              (fold_left (λ b kf, appender b kf.1 kf.2)
                 (zip (pretty <$> seq 1 (length fs)) fs.*1)
                 [("operations", FString (JSON_stringify h' clone));
                  ("map", FString (JSON_stringify_map
                                     (zip (pretty <$> seq 1 (length fs)) fs.*2)))])))
    as Hreq.
  { intros app. unfold request. rewrite Hr. unfold upload_body.
    rewrite decide_False by by destruct fs.
    unfold append_files. by rewrite append_files_go, Hmap. }
  split_and!; [|done|apply Hreq|].
  - simpl in Hr.
    destruct (recurse F isx fuel body "" ∅ (State h ∅ [])) as [[c st]|] eqn:Hrec;
      [|done].
    simpl in Hr. injection Hr as <- <- <-.
    apply (recurse_files_NoDup _ _ _ _ _ _ _ _ _ Hrec). simpl. constructor.
  - by rewrite Hreq, default_appender_fold.
Qed.

End UploadFacts.

Lemma multipart_map_and_parts_indexed_witness :
  NoDup [(Example1.file1, ["a"; "b.0"]); (Example1.file2, ["b.1"])].*1 ∧
  build_map [(Example1.file1, ["a"; "b.0"]); (Example1.file2, ["b.1"])]
  = [("1", ["a"; "b.0"]); ("2", ["b.1"])] ∧
  request (λ _ _, "operations") (λ _, "map") true 3 Example1.h0 Example1.input 4
    Example1.isFile (λ b k f, b ++ [(k, FBlob f None)])
  = Some (Multipart [("operations", FString "operations"); ("map", FString "map");
                     ("1", FBlob Example1.file1 None);
                     ("2", FBlob Example1.file2 None)]) ∧
  request (λ _ _, "operations") (λ _, "map") true 3 Example1.h0 Example1.input 4
    Example1.isFile (formDataAppendFile (λ _, Some "f.txt"))
  = Some (Multipart [("operations", FString "operations"); ("map", FString "map");
                     ("1", FBlob Example1.file1 (Some "f.txt"));
                     ("2", FBlob Example1.file2 (Some "f.txt"))]).
Proof.
  apply (multipart_map_and_parts_indexed (λ _ _, "operations") (λ _, "map")
           (λ _, Some "f.txt") true 3 Example1.h0 Example1.input 4
           Example1.isFile (λ b k f, b ++ [(k, FBlob f None)])
           (VRef 5) [(Example1.file1, ["a"; "b.0"]); (Example1.file2, ["b.1"])]
           (Example1.h0 ++ [ OPlain true [("a", VNull); ("b", VRef 6)];
                             OArray [VNull; VNull] ])).
  - vm_compute. reflexivity.
  - discriminate.
Defined.

(** * Further properties of the code *)

(** ** Path strings *)






(** ** Where the recorded paths come from *)

Lemma trail_suffix F isx (h : heap) l : ∀ segs u,
  l ∈ trail F isx h u segs →
  ∃ segs2 pre,
    trail F isx h u segs = pre ++ trail F isx h (VRef l) segs2 ∧
    walk F isx h u segs = walk F isx h (VRef l) segs2.
Proof.
  induction segs as [|k segs IH]; intros u; simpl.
  { by intros ?%elem_of_nil. }
  destruct (isx u) eqn:Hx; [by intros ?%elem_of_nil|].
  destruct (container F h u) as [[lu s]|] eqn:Hc; [|by intros ?%elem_of_nil].
  destruct (lookup_entry k (entries s)) as [w|] eqn:Hk;
    [|by intros ?%elem_of_nil].
  intros [->|Hin]%elem_of_cons.
  - exists (k :: segs), []. pose proof (container_ref _ _ _ _ _ Hc) as ->.
    cbn [trail walk app]. by rewrite Hx, Hc, Hk.
  - destruct (IH w Hin) as (segs2 & pre & Ht & Hw).
    exists segs2, (lu :: pre). by rewrite Ht, Hw.
Qed.

(** Every walk can be replaced by one that enters no container twice. *)
Lemma walk_simplify F isx (h : heap) f : ∀ segs v,
  walk F isx h v segs = Some f →
  ∃ segs', walk F isx h v segs' = Some f ∧ NoDup (trail F isx h v segs').
Proof.
  induction segs as [|k segs IH]; intros v; simpl.
  { intros [= <-]. exists []. split; [done|constructor]. }
  destruct (isx v) eqn:Hx; [done|].
  destruct (container F h v) as [[l s]|] eqn:Hc; [|done].
  destruct (lookup_entry k (entries s)) as [u|] eqn:Hk; [|done].
  intros Hw. destruct (IH u Hw) as (segs1 & Hw1 & Hnd).
  destruct (decide (l ∈ trail F isx h u segs1)) as [Hin|Hnin].
  - destruct (trail_suffix _ _ _ _ _ _ Hin) as (segs2 & pre & Ht & Hw2).
    pose proof (container_ref _ _ _ _ _ Hc) as ->.
    exists segs2. split; [by rewrite <- Hw2|].
    rewrite Ht in Hnd. by apply NoDup_app in Hnd as (_ & _ & Hnd).
  - exists (k :: segs1). cbn [trail walk]. rewrite Hx, Hc, Hk. split; [done|].
    by constructor.
Qed.

Lemma walk_from_file F isx (h : heap) v segs f :
  isx v = true → walk F isx h v segs = Some f → segs = [] ∧ f = v.
Proof. destruct segs; simpl; [by intros _ [= <-]|]. by intros ->. Qed.

Lemma paths_of_elem f path occ : path ∈ paths_of f occ ↔ (f, path) ∈ occ.
Proof.
  unfold paths_of. rewrite list_elem_of_fmap. split.
  - intros ([f' p'] & -> & [Hf Hin]%list_elem_of_filter). simpl in *. by subst.
  - intros Hin. exists (f, path). split; [done|].
    by apply list_elem_of_filter.
Qed.

Section Occurrences.

Variable F : bool.
Variable isx : value → bool.
Variable h0 : heap.
Hypothesis h0_wf : wf_heap h0.

Local Abbreviation visits := (visits F isx h0).

(** An occurrence met by the traversal is a file of the input, at a
    position reached without entering a container twice. *)
Lemma visits_sound fuel : ∀ (rd : gset loc) v p f path,
  (f, path) ∈ visits fuel rd v p →
  ∃ segs, path = join_path p segs ∧ walk F isx h0 v segs = Some f ∧ isx f = true ∧
          NoDup (trail F isx h0 v segs) ∧ ∀ l, l ∈ trail F isx h0 v segs → l ∉ rd.
Proof.
  induction fuel as [|fuel IH]; intros rd v p f path; simpl.
  { by intros ?%elem_of_nil. }
  destruct (isx v) eqn:Hx.
  { intros [= -> ->]%list_elem_of_singleton. exists []. simpl.
    split_and!; try done; [constructor|by intros l ?%elem_of_nil]. }
  destruct (container F h0 v) as [[l s]|] eqn:Hc; [|by intros ?%elem_of_nil].
  destruct (decide (l ∈ rd)) as [|Hl]; [by intros ?%elem_of_nil|].
  intros ([k u] & Hku & Hin)%list_elem_of_In%in_flat_map.
  apply list_elem_of_In in Hku, Hin. simpl in Hin.
  destruct (IH _ _ _ _ _ Hin) as (segs & -> & Hw & Hf & Hnd & Hav).
  pose proof (container_ref _ _ _ _ _ Hc) as ->.
  destruct (container_wf _ _ _ _ _ h0_wf Hc) as [_ Hkeys].
  exists (k :: segs). cbn [join_path walk trail].
  rewrite Hx, Hc, (lookup_entry_elem _ _ _ Hkeys Hku).
  split_and!; try done.
  - constructor; [|done]. intros Hl'. apply (Hav _ Hl'). set_solver.
  - intros l' [->|Hl']%elem_of_cons; [done|]. specialize (Hav _ Hl'). set_solver.
Qed.

(** Conversely the traversal meets every such position. *)
Lemma visits_complete fuel : ∀ (rd : gset loc) v p segs f,
  length h0 < fuel + size rd → (∀ l, l ∈ rd → l < length h0) →
  walk F isx h0 v segs = Some f → isx f = true →
  NoDup (trail F isx h0 v segs) → (∀ l, l ∈ trail F isx h0 v segs → l ∉ rd) →
  (f, join_path p segs) ∈ visits fuel rd v p.
Proof.
  induction fuel as [|fuel IH]; intros rd v p segs f Hfuel Hrd Hw Hf Hnd Hav.
  { assert (size rd ≤ length h0); [|simpl in *; lia].
    rewrite <- (size_set_seq (C := gset nat) 0 (length h0)).
    apply subseteq_size. intros l Hl. apply elem_of_set_seq.
    specialize (Hrd l Hl). lia. }
  simpl. destruct (isx v) eqn:Hx.
  { destruct (walk_from_file _ _ _ _ _ _ Hx Hw) as [-> ->]. simpl. left. }
  destruct segs as [|k segs]; simpl in *.
  { injection Hw as <-. congruence. }
  rewrite Hx in *.
  destruct (container F h0 v) as [[l s]|] eqn:Hc; [|done].
  destruct (lookup_entry k (entries s)) as [u|] eqn:Hk; [|done].
  apply NoDup_cons in Hnd as [Hl Hnd].
  assert (l ∉ rd) as Hlrd by (apply Hav; left).
  rewrite decide_False by done.
  apply list_elem_of_In, in_flat_map. exists (k, u). split.
  { apply list_elem_of_In. by apply lookup_entry_Some. }
  apply list_elem_of_In. simpl. apply IH; try done.
  - rewrite (size_open h0 h0_wf) by done. lia.
  - intros l' [Hl'| ->%elem_of_singleton]%elem_of_union; [by apply Hrd|].
    pose proof (container_ref _ _ _ _ _ Hc) as ->. simpl in Hc.
    destruct (h0 !! l) eqn:Hlk; [|done]. by eapply lookup_lt_Some.
  - intros l' Hl' [Hin| ->%elem_of_singleton]%elem_of_union; [|done].
    apply (Hav l'); [by right|done].
Qed.

End Occurrences.

Lemma files_get_occurrences occ f p :
  (∃ ps, files_get (record_all occ []) f = Some ps ∧ p ∈ ps) ↔ (f, p) ∈ occ.
Proof.
  rewrite files_get_record_all, <- paths_of_elem. simpl. split.
  - intros (ps & Hps & Hin). by destruct (paths_of f occ); simplify_eq.
  - intros Hin. exists (paths_of f occ). split; [|done].
    destruct (paths_of f occ); [by apply elem_of_nil in Hin|done].
Qed.

Lemma record_all_nil occ : record_all occ [] = [] ↔ occ = [].
Proof.
  split; [|by intros ->]. destruct occ as [|[f p] occ]; [done|]. intros Hnil.
  assert (∃ ps, files_get (record_all ((f, p) :: occ) []) f = Some ps ∧ p ∈ ps)
    as (ps & Hps & _) by (apply files_get_occurrences; left).
  by rewrite Hnil in Hps.
Qed.


(** What the theorems below share: the call returns, in a final state that
    satisfies the invariant, and the file map holds the occurrences met. *)
Lemma extract_occurrences F isx (h : heap) v lf path fuel :
  wf_heap h → wf_value h v → length h < fuel →
  ∃ clone st,
    extractFiles F fuel h [AVal v; AFun lf isx; AVal (VString path)]
    = Some (Return clone (files st) (store st)) ∧
    inv F isx h ∅ st ∧ clone_value F isx h (clones st) v = Some clone ∧
    (∀ f p, (∃ ps, files_get (files st) f = Some ps ∧ p ∈ ps) ↔
            (∃ segs, p = join_path path segs ∧ walk F isx h v segs = Some f ∧
                     isx f = true ∧ NoDup (trail F isx h v segs))) ∧
    (files st = [] ↔ ∀ segs u, walk F isx h v segs = Some u → isx u = false).
Proof.
  intros Hwf Hv Hfuel.
  destruct (extract_ok F isx h v lf path fuel Hwf Hv Hfuel)
    as (clone & st & Hr & Hinv & Hcv & Hf).
  exists clone, st. split_and!; try done.
  - intros f p. rewrite Hf, files_get_occurrences. split.
    + intros Hin.
      destruct (visits_sound F isx h Hwf fuel ∅ v path f p Hin)
        as (segs & -> & Hw & Hx & Hnd & _).
      by exists segs.
    + intros (segs & -> & Hw & Hx & Hnd).
      apply (visits_complete F isx h Hwf); try done; try set_solver.
      rewrite size_empty. lia.
  - rewrite Hf, record_all_nil. split.
    + intros Hnil segs u Hw. destruct (isx u) eqn:Hx; [|done].
      destruct (walk_simplify _ _ _ _ _ _ Hw) as (segs' & Hw' & Hnd).
      assert ((u, join_path path segs') ∈ visits F isx h fuel ∅ v path) as Hin.
      { apply (visits_complete F isx h Hwf); try done; try set_solver.
        rewrite size_empty. lia. }
      rewrite Hnil in Hin. by apply elem_of_nil in Hin.
    + intros Hno.
      destruct (visits F isx h fuel ∅ v path) as [|[f p] occ] eqn:Hocc; [done|].
      destruct (visits_sound F isx h Hwf fuel ∅ v path f p)
        as (segs & _ & Hw & Hx & _); [rewrite Hocc; left|].
      rewrite (Hno _ _ Hw) in Hx. done.
Qed.







(** With the empty prefix an empty key at the top level leaves no trace in
    the path: two positions can share a path string. *)
Example empty_key_path :
  join_path "" [""; "a"] = "a" ∧ join_path "" ["a"] = "a".
Proof. by vm_compute. Qed.

(** With every key written as an own property, position by position:
    where the input holds a file the clone holds [null], and where it holds
    a value that is neither a file nor a recognised container the clone
    holds that very value. *)
Lemma clone_leaves F isx (h : heap) v lf path fuel :
  wf_heap h → wf_value h v → length h < fuel →
  ∃ clone fs h',
    extractFiles F fuel h [AVal v; AFun lf isx; AVal (VString path)]
    = Some (Return clone fs h') ∧
    ∀ segs u, walk F isx h v segs = Some u →
      (isx u = true → at_path F h' clone segs = Some VNull) ∧
      (isx u = false → container F h u = None →
       at_path F h' clone segs = Some u).
Proof.
  intros Hwf Hv Hfuel.
  destruct (extract_ok F isx h v lf path fuel Hwf Hv Hfuel)
    as (clone & st & Hr & Hinv & Hcv & _).
  exists clone, (files st), (store st). split; [done|].
  intros segs u Hw.
  destruct (walk_clone F isx h Hwf st Hinv segs v clone u Hcv Hw)
    as (u' & Hu' & Hc).
  unfold clone_value in Hc. split.
  - intros Hx. rewrite Hx in Hc. by injection Hc as <-.
  - intros Hx Hcont. rewrite Hx, Hcont in Hc. by injection Hc as <-.
Qed.





(** ** The request of the upload links *)




(** ** The default classifier *)







(** The cases of the test suite. *)
Example isExtractableFile_tests :
  let h := [ OOther "File"; OOther "Blob"; OPlain true []; OArray [] ] in
  isExtractableFile true true h (VRef 0) = true ∧
  isExtractableFile true true h (VRef 1) = true ∧
  isExtractableFile true true h VNull = false ∧
  isExtractableFile true true h VUndefined = false ∧
  isExtractableFile true true h (VString "string") = false ∧
  isExtractableFile true true h (VNumber 123) = false ∧
  isExtractableFile true true h (VRef 2) = false ∧
  isExtractableFile true true h (VRef 3) = false ∧
  isExtractableFile false false h (VRef 2) = false.
Proof. by vm_compute. Qed.

(** ** [compact] *)

Lemma prop_get_set {A} (ps : list (string * A)) k v k' :
  prop_get (prop_set ps k v) k'
  = if decide (k = k') then Some v else prop_get ps k'.
Proof.
  induction ps as [|[k0 w] ps IH]; simpl.
  { by destruct (decide (k = k')). }
  destruct (decide (k0 = k)) as [->|Hk0]; simpl.
  - by destruct (decide (k = k')).
  - rewrite IH. destruct (decide (k0 = k')) as [->|?]; [|done].
    by rewrite decide_False.
Qed.

Lemma prop_get_elem {A} (ps : list (string * A)) k v :
  NoDup ps.*1 → (k, v) ∈ ps → prop_get ps k = Some v.
Proof.
  induction ps as [|[k0 w] ps IH]; [by intros _ ?%elem_of_nil|].
  rewrite fmap_cons. cbn [prop_get fst].
  intros [Hk Hnd]%NoDup_cons [[= -> ->]|Hin]%elem_of_cons.
  - by rewrite decide_True.
  - rewrite decide_False; [by apply IH|]. intros ->. apply Hk.
    apply list_elem_of_fmap. by exists (k, v).
Qed.

Lemma prop_get_None {A} (ps : list (string * A)) k :
  prop_get ps k = None ↔ k ∉ ps.*1.
Proof.
  induction ps as [|[k0 w] ps IH]; [by split; [intros _ ?%elem_of_nil|]|].
  rewrite fmap_cons, not_elem_of_cons. cbn [prop_get fst].
  destruct (decide (k0 = k)) as [->|?]; [by split; [|intros []]|].
  rewrite IH. naive_solver.
Qed.














(** ** From the map back to the operation *)

Lemma files_get_lookup (fs : list (value * list string)) i f ps :
  NoDup fs.*1 → fs !! i = Some (f, ps) → files_get fs f = Some ps.
Proof.
  revert i. induction fs as [|[k qs] fs IH]; intros i; [done|].
  rewrite fmap_cons. cbn [files_get fst].
  intros [Hk Hnd]%NoDup_cons. destruct i as [|i]; simpl.
  - intros [= -> ->]. by rewrite decide_True.
  - intros Hi. rewrite decide_False; [by eapply IH|]. intros ->. apply Hk.
    apply list_elem_of_fmap. exists (f, ps). split; [done|].
    by eapply list_elem_of_lookup_2.
Qed.

Lemma build_map_lookup (fs : list (value * list string)) i f ps :
  fs !! i = Some (f, ps) → prop_get (build_map fs) (pretty (S i)) = Some ps.
Proof.
  intros Hi. unfold build_map. rewrite (build_map_go fs 0 []) by done. simpl.
  apply prop_get_elem.
  - rewrite fst_zip.
    + apply NoDup_fmap_2; [apply _|apply NoDup_seq].
    + by rewrite !length_fmap, length_seq.
  - apply list_elem_of_lookup. exists i. apply lookup_zip_with_Some.
    exists (pretty (S i)), ps. split_and!; [done| |].
    + rewrite list_lookup_fmap, lookup_seq_lt; [done|].
      by eapply lookup_lt_Some.
    + by rewrite list_lookup_fmap, Hi.
Qed.

(** With every key written as an own property: the entry of the map under
    the index of a file lists paths that each address, in the operation
    body, that very file, and at each of them the clone holds [null]. *)
Lemma map_paths_address_files F isx (h : heap) body lf fuel :
  wf_heap h → wf_value h body → length h < fuel →
  ∃ clone fs h',
    extractFiles F fuel h [AVal body; AFun lf isx; AVal (VString "")]
    = Some (Return clone fs h') ∧
    ∀ i f ps p, fs !! i = Some (f, ps) → p ∈ ps →
      prop_get (build_map fs) (pretty (S i)) = Some ps ∧
      ∃ segs, p = join_path "" segs ∧ walk F isx h body segs = Some f ∧
              isx f = true ∧ at_path F h' clone segs = Some VNull.
Proof.
  intros Hwf Hv Hfuel.
  destruct (extract_occurrences F isx h body lf "" fuel Hwf Hv Hfuel)
    as (clone & st & Hr & Hinv & Hcv & Hocc & _).
  exists clone, (files st), (store st). split; [done|].
  intros i f ps p Hi Hp. split; [by eapply build_map_lookup|].
  assert (NoDup (files st).*1) as Hnd.
  { simpl in Hr.
    destruct (recurse F isx fuel body "" ∅ (State h ∅ [])) as [[c st']|] eqn:Hrec;
      [|done].
    simpl in Hr. injection Hr as _ <- _.
    apply (recurse_files_NoDup _ _ _ _ _ _ _ _ _ Hrec). simpl. constructor. }
  destruct (proj1 (Hocc f p)) as (segs & -> & Hw & Hx & _).
  { exists ps. split; [|done]. by eapply files_get_lookup. }
  exists segs. split_and!; try done.
  destruct (walk_clone F isx h Hwf st Hinv segs body clone f Hcv Hw)
    as (u' & Hu' & Hc).
  unfold clone_value in Hc. rewrite Hx in Hc. by injection Hc as <-.
Qed.

(** ** The kinds of the clones *)

(** With every key written as an own property placed last: the clone of an
    array or of a file list is an array with as many items, and the clone
    of a plain object is a plain object of the same sort with the same keys
    in the same order. *)
Lemma clone_kinds F isx (h : heap) v lf path fuel :
  wf_heap h → wf_value h v → length h < fuel →
  ∃ clone fs h',
    extractFiles F fuel h [AVal v; AFun lf isx; AVal (VString path)]
    = Some (Return clone fs h') ∧
    ∀ segs l s,
      walk F isx h v segs = Some (VRef l) → isx (VRef l) = false →
      container F h (VRef l) = Some (l, s) →
      ∃ c, at_path F h' clone segs = Some (VRef c) ∧
        match s with
        | SList items =>
            ∃ items', h' !! c = Some (OArray items') ∧
                      length items' = length items
        | SPlain inst props =>
            ∃ props', h' !! c = Some (OPlain inst props') ∧
                      props'.*1 = props.*1
        end.
Proof.
  intros Hwf Hv Hfuel.
  destruct (extract_ok F isx h v lf path fuel Hwf Hv Hfuel)
    as (clone & st & Hr & Hinv & Hcv & _).
  exists clone, (files st), (store st). split; [done|].
  intros segs l s Hw Hx Hc.
  destruct (walk_clone F isx h Hwf st Hinv segs v clone _ Hcv Hw)
    as (u & Hu & Hcu).
  destruct (clone_value_container F isx h _ _ _ _ _ Hx Hc Hcu) as (c & Hl & ->).
  destruct (cloned_container F isx h Hwf st _ _ _ _ Hinv Hc Hl)
    as (s' & d & _ & _ & _ & Hd' & Hd & _).
  exists c. split; [done|]. destruct s as [items|inst props]; simpl in *.
  - exists d.*2. split; [done|]. apply Forall2_length in Hd.
    by rewrite length_fmap, <- Hd, index_entries_length.
  - exists d. split; [done|]. symmetry. by eapply entry_cloned_keys.
Qed.

(** A file list of two files, cloned as an array of two [null]s. *)
Example file_list_run :
  extractFiles true 2 [OOther "File"; OOther "File"; OFileList [VRef 0; VRef 1];
                       OOther "Function"]
    [AVal (VRef 2); AFun 3 (λ v, bool_decide (v = VRef 0) || bool_decide (v = VRef 1));
     AVal (VString "files")]
  = Some (Return (VRef 4) [(VRef 0, ["files.0"]); (VRef 1, ["files.1"])]
            [OOther "File"; OOther "File"; OFileList [VRef 0; VRef 1];
             OOther "Function"; OArray [VNull; VNull]]).
Proof. by vm_compute. Qed.

(** ** The headers of the request context *)

Lemma prop_get_spread (src : list (string * value)) k : ∀ target,
  NoDup src.*1 →
  prop_get (spread target (Some src)) k
  = match prop_get src k with
    | Some v => Some v
    | None => prop_get target k
    end.
Proof.
  unfold spread. induction src as [|[k0 v0] src IH]; intros target; [done|].
  rewrite fmap_cons. intros [Hk Hnd]%NoDup_cons. simpl in Hk.
  cbn [fold_left prop_get fst snd]. rewrite IH by done. rewrite prop_get_set.
  destruct (decide (k0 = k)) as [->|?]; [|done].
  apply prop_get_None in Hk. by rewrite Hk.
Qed.

(** X15. In [UploadLink] a header of the request context overrides the
    client awareness header of the same name; the client awareness headers
    are set only for a non-empty name or version, and every other header is
    that of the context. *)
Theorem context_headers_get name version (ctx : list (string * value)) k :
  NoDup ctx.*1 →
  prop_get (context_headers name version (Some ctx)) k
  = match prop_get ctx k with
    | Some v => Some v
    | None =>
        if decide (k = "apollographql-client-version") then
          match version with
          | Some s => if decide (s = "") then None else Some (VString s)
          | None => None
          end
        else if decide (k = "apollographql-client-name") then
          match name with
          | Some s => if decide (s = "") then None else Some (VString s)
          | None => None
          end
        else None
    end.
Proof.
  intros Hnd. unfold context_headers. rewrite prop_get_spread by done.
  destruct (prop_get ctx k) as [v|]; [done|].
  assert (∀ key (o : option string) target,
    prop_get (spread target (header_if key o)) k
    = match header_if key o with
      | Some _ => if decide (key = k) then VString <$> o else prop_get target k
      | None => prop_get target k
      end) as Hone.
  { intros key o target. unfold header_if. destruct o as [s|]; [|done].
    destruct (decide (s = "")); [done|]. simpl. apply prop_get_set. }
  rewrite !Hone. unfold header_if.
  destruct version as [sv|], name as [sn|]; simpl;
    repeat (case_decide; simplify_eq/=; try done).
Qed.

Lemma context_headers_get_witness :
  prop_get (context_headers (Some "web") (Some "1.0")
              (Some [("apollographql-client-name", VString "mine");
                     ("authorization", VString "token")]))
           "apollographql-client-name"
  = match prop_get [("apollographql-client-name", VString "mine");
                    ("authorization", VString "token")]
                   "apollographql-client-name" with
    | Some v => Some v
    | None =>
        if decide ("apollographql-client-name" = "apollographql-client-version")
        then if decide ("1.0" = "") then None else Some (VString "1.0")
        else if decide ("apollographql-client-name" = "apollographql-client-name")
        then if decide ("web" = "") then None else Some (VString "web")
        else None
    end.
Proof.
  apply (context_headers_get (Some "web") (Some "1.0")
           [("apollographql-client-name", VString "mine");
            ("authorization", VString "token")]
           "apollographql-client-name").
  compute_done.
Defined.

Example context_headers_run :
  context_headers (Some "web") (Some "") None
  = [("apollographql-client-name", VString "web")] ∧
  context_headers (Some "web") (Some "1.0")
    (Some [("apollographql-client-name", VString "mine")])
  = [("apollographql-client-name", VString "mine");
     ("apollographql-client-version", VString "1.0")].
Proof. by vm_compute. Qed.

(** * The assignment as the engine performs it *)

(** ** Both loops as one *)

Lemma for_in_js_for_each rec pp clone u props st :
  Js.for_in rec pp clone u props st
  = for_each_js rec (Js.assign clone) u pp props st.
Proof.
  revert st. induction props as [|[key v] rest IH]; intros st; simpl; [done|].
  destruct (rec v (pp +:+ key) st) as [[[c st1]| |]|]; simpl; try done.
  destruct u; [|apply IH].
  destruct (Js.assign clone key c st1); simpl; [apply IH|done|done].
Qed.

Lemma for_of_js_for_each rec pp clone u items index st :
  Js.for_of rec pp clone u items index st
  = for_each_js rec (write_js (SList items) clone) u pp
      (index_entries index items) st.
Proof.
  revert index st. induction items as [|v rest IH]; intros index st; simpl; [done|].
  destruct (rec v (pp +:+ pretty index) st) as [[[c st1]| |]|]; simpl; try done.
  destruct u; simpl; apply IH.
Qed.

Lemma recurse_js_unfold F isx fuel v path rd st :
  Js.recurse F isx (S fuel) v path rd st =
    if isx v then
      Some (Js.Done (VNull,
                     Js.JState (State (store (Js.base st)) (clones (Js.base st))
                                  (files_record (files (Js.base st)) v path))
                               (Js.protos st)))
    else
      match container F (store (Js.base st)) v with
      | Some (l, s) =>
          let '(clone, uncloned, b1) := get_clone l s (Js.base st) in
          if decide (l ∈ rd) then
            Some (Js.Done (VRef clone, Js.JState b1 (Js.protos st)))
          else
            Js.bind
              (for_each_js (λ v p st, Js.recurse F isx fuel v p (rd ∪ {[l]}) st)
                 (write_js s clone) uncloned (path_prefix path) (entries s)
                 (Js.JState b1 (Js.protos st)))
              (λ st2, Some (Js.Done (VRef clone, st2)))
      | None => Some (Js.Done (v, st))
      end.
Proof.
  simpl. destruct (isx v); [done|].
  destruct (container F (store (Js.base st)) v) as [[l s]|]; [|done].
  destruct (get_clone l s (Js.base st)) as [[clone uncloned] b1].
  destruct (decide (l ∈ rd)); [done|].
  destruct s as [items|inst props]; simpl.
  - by rewrite (for_of_js_for_each _ _ _ _ items).
  - by rewrite for_in_js_for_each.
Qed.

(** ** Ordinary keys are own properties added at the end *)

Lemma insert_index_last {A} n key (v : A) props :
  forallb (index_below n) props.*1 = true →
  Js.insert_index n key v props = props ++ [(key, v)].
Proof.
  induction props as [|[k w] props IH]; simpl; [done|].
  intros [Hk Hrest]%andb_prop. unfold index_below in Hk.
  destruct (Js.array_index k) as [m|]; [|done].
  rewrite Hk. by rewrite IH.
Qed.

Lemma own_key_order_prefix keys : ∀ seen pre key suf n,
  own_key_order seen keys = true → keys = pre ++ key :: suf →
  Js.array_index key = Some n →
  forallb (index_below n) (seen ++ pre) = true.
Proof.
  induction keys as [|k keys IH]; intros seen pre key suf n Ho Hk Hn.
  { by destruct pre. }
  simpl in Ho. apply andb_prop in Ho as [Hhere Hrest].
  destruct pre as [|k' pre]; simplify_eq/=.
  - rewrite Hn in Hhere. by rewrite app_nil_r.
  - rewrite cons_middle, app_assoc. by eapply IH.
Qed.

Lemma own_set_last {A} (props : list (string * A)) key v :
  key ∉ props.*1 →
  (∀ n, Js.array_index key = Some n →
        forallb (index_below n) props.*1 = true) →
  Js.own_set props key v = prop_set props key v.
Proof.
  intros Hk Hn. unfold Js.own_set. case_bool_decide; [done|].
  rewrite prop_set_fresh by done.
  destruct (Js.array_index key) as [n|]; [|done].
  by apply insert_index_last, Hn.
Qed.

(** On a clone whose prototype has not been replaced, an ordinary key is
    written as [write] does. *)
Lemma write_js_own s c key v st d :
  store st !! c = Some (repr_obj s d) → key ∉ d.*1 →
  match s with
  | SList _ => True
  | SPlain inst _ =>
      (inst = true → key ≠ "__proto__") ∧
      ∀ n, Js.array_index key = Some n →
           forallb (index_below n) d.*1 = true
  end →
  write_js s c key v (unreplaced st)
  = Js.Done (unreplaced (with_store st (write s c key v (store st)))).
Proof.
  intros Hc Hk Hs. destruct s as [items|inst props]; simpl; [done|].
  destruct Hs as [Hp Hn].
  unfold Js.assign, object_set. simpl in *. rewrite Hc, lookup_empty.
  rewrite (own_set_last d key v Hk Hn).
  destruct inst; [|done]. simpl.
  by rewrite bool_decide_false by by apply Hp.
Qed.

Lemma ordinary_container F (h : heap) l s :
  ordinary h → container F h (VRef l) = Some (l, s) →
  (∀ props, s = SPlain true props → "__proto__" ∉ props.*1) ∧
  (∀ inst props, s = SPlain inst props → own_key_order [] props.*1 = true).
Proof.
  intros Ho Hc. simpl in Hc. destruct (h !! l) as [o|] eqn:Hl; [|done].
  unfold ordinary in Ho. rewrite Forall_lookup in Ho. specialize (Ho _ _ Hl).
  destruct o as [items|items|inst props|tag]; simpl in *.
  - injection Hc as <-. by split.
  - destruct F; [|done]. injection Hc as <-. by split.
  - injection Hc as <-. apply andb_prop in Ho as [Hp Hord]. split.
    + intros props' [= -> <-]. simpl in Hp.
      by apply negb_true_iff, bool_decide_eq_false in Hp.
    + by intros inst' props' [= <- <-].
  - done.
Qed.

(** ** [Js.recurse] on inputs with ordinary keys *)

Section Ordinary.

Variable F : bool.
Variable isx : value → bool.
Variable h0 : heap.
Hypothesis h0_wf : wf_heap h0.
Hypothesis h0_ordinary : ordinary h0.

Local Abbreviation entry_cloned := (entry_cloned F isx h0).
Local Abbreviation inv := (inv F isx h0).
Local Abbreviation rec_spec := (rec_spec F isx h0).

Local Abbreviation same_run := (same_run F isx h0).

Lemma for_each_same_run rd rec recj vis s l c (uncloned : bool) pp :
  rec_spec rd rec vis → same_run rd rec recj →
  container F h0 (VRef l) = Some (l, s) → l ∈ rd →
  ∀ rest done d st st',
    entries s = done ++ rest →
    inv rd st → clones st !! l = Some c →
    (uncloned = true →
       store st !! c = Some (repr_obj s d) ∧
       Forall2 (entry_cloned (clones st)) done d) →
    for_each rec (write s c) uncloned pp rest st = Some st' →
    for_each_js recj (write_js s c) uncloned pp rest (unreplaced st)
    = Some (Js.Done (unreplaced st')).
Proof.
  intros Hrec Hsame Hs Hl.
  destruct (container_wf F h0 l l s h0_wf Hs) as [Hwf Hnd].
  destruct (ordinary_container F h0 l s h0_ordinary Hs) as [Hproto Horder].
  induction rest as [|[k v] rest IH]; intros done d st st' Hent Hinv Hc Hun.
  { simpl. by intros [= <-]. }
  assert (wf_value h0 v) as Hv.
  { rewrite Hent, fmap_app, Forall_app in Hwf. destruct Hwf as [_ Hwf].
    by inversion Hwf. }
  destruct (Hrec v (pp +:+ k) st Hv Hinv)
    as (v' & st1 & Hr & Hinv1 & Hext1 & Hsub1 & Hcv & _).
  assert (clones st1 !! l = Some c) as Hc1 by by eapply lookup_weaken.
  simpl. rewrite Hr, (Hsame _ _ _ _ _ Hv Hinv Hr). simpl.
  destruct uncloned; simpl.
  - destruct (Hun eq_refl) as [Hst Hd].
    pose proof (entry_cloned_keys F isx h0 _ _ _ Hd) as Hkeys.
    assert (k ∉ d.*1) as Hk.
    { rewrite <- Hkeys.
      rewrite Hent, fmap_app in Hnd. apply NoDup_app in Hnd as (_ & Hnd & _).
      intros Hin. apply (Hnd _ Hin). simpl. left. }
    apply Hext1 in Hst.
    rewrite (write_js_own s c k v' st1 d Hst Hk).
    + simpl. rewrite (write_repr _ _ _ _ _ _ Hst Hk).
      apply (IH (done ++ [(k, v)]) (d ++ [(k, v')])).
      * by rewrite <- app_assoc.
      * by eapply inv_insert.
      * done.
      * intros _. simpl. split.
        -- apply list_lookup_insert_eq. by eapply lookup_lt_Some.
        -- apply Forall2_app; [|by repeat constructor].
           eapply Forall2_impl; [done|]. intros x y. by apply entry_cloned_mono.
    + destruct s as [items|inst props]; [done|]. cbn [entries] in Hent. split.
      * intros ->. intros ->. apply (Hproto props eq_refl).
        rewrite Hent, fmap_app. set_solver.
      * intros n Hn. rewrite <- Hkeys.
        pose proof (own_key_order_prefix props.*1 [] done.*1 k rest.*1 n
                 (Horder inst props eq_refl)) as Hpre.
        apply Hpre; [|done]. by rewrite Hent, fmap_app.
  - apply (IH (done ++ [(k, v)]) d); try done. by rewrite <- app_assoc.
Qed.

Lemma recurse_same_run fuel :
  ∀ rd, length h0 < fuel + size rd →
    same_run rd (λ v p st, recurse F isx fuel v p rd st)
                (λ v p st, Js.recurse F isx fuel v p rd st).
Proof.
  induction fuel as [|fuel IH]; intros rd Hfuel v p st v' st' Hv Hinv Hr.
  { done. }
  rewrite recurse_unfold in Hr. rewrite recurse_js_unfold.
  unfold unreplaced. cbn [Js.base Js.protos].
  destruct (isx v) eqn:Hx.
  { by injection Hr as <- <-. }
  rewrite (ext_container F _ _ _ (inv_ext F isx h0 _ _ Hinv) Hv) in Hr |- *.
  destruct (container F h0 v) as [[l s]|] eqn:Hcont; cycle 1.
  { by injection Hr as <- <-. }
  pose proof (container_ref _ _ _ _ _ Hcont) as ->.
  pose proof (recurse_spec F isx h0 h0_wf fuel (rd ∪ {[l]})) as Hspec.
  unfold get_clone in *. destruct (clones st !! l) as [c|] eqn:Hcl.
  - destruct (decide (l ∈ rd)) as [Hin|Hnin].
    { by injection Hr as <- <-. }
    destruct (for_each _ _ _ _ _ st) as [st2|] eqn:Hfe; [|done].
    injection Hr as <- <-.
    pose proof (for_each_same_run (rd ∪ {[l]}) _ _ _ s l c false (path_prefix p)
               (Hspec ltac:(rewrite (size_open h0 h0_wf) by done; lia))
               (IH (rd ∪ {[l]}) ltac:(rewrite (size_open h0 h0_wf) by done; lia))
               Hcont ltac:(set_solver) (entries s) [] [] st st2) as Hjs.
    unfold unreplaced in Hjs. rewrite Hjs; try done.
    by eapply (inv_open_more F isx h0 h0_wf).
  - destruct (decide (l ∈ rd)) as [Hin|Hnin].
    { by injection Hr as <- <-. }
    set (c := length (store st)) in *.
    set (st1 := State (store st ++ [empty_clone s]) (<[l := c]> (clones st))
                      (files st)) in *.
    destruct (for_each _ _ _ _ _ st1) as [st2|] eqn:Hfe; [|done].
    injection Hr as <- <-.
    pose proof (for_each_same_run (rd ∪ {[l]}) _ _ _ s l c true (path_prefix p)
               (Hspec ltac:(rewrite (size_open h0 h0_wf) by done; lia))
               (IH (rd ∪ {[l]}) ltac:(rewrite (size_open h0 h0_wf) by done; lia))
               Hcont ltac:(set_solver) (entries s) [] [] st1 st2) as Hjs.
    unfold unreplaced in Hjs. rewrite Hjs; try done.
    + by apply (inv_alloc F isx h0 h0_wf).
    + apply lookup_insert_eq.
    + intros _. split; [|constructor]. subst st1 c. simpl.
      rewrite lookup_app_r by done. rewrite Nat.sub_diag.
      by destruct s.
Qed.

End Ordinary.

(** On an input with ordinary keys [Js.extractFiles] does what
    [extractFiles] does, and replaces no prototype. *)
Lemma extractFiles_ordinary F (h : heap) args fuel :
  wf_heap h → ordinary h →
  (∀ a, args !! 0 = Some a → wf_value h (arg_value a)) →
  length h < fuel →
  Js.extractFiles F fuel h args = own_outcome <$> extractFiles F fuel h args.
Proof.
  intros Hwf Hord Hv Hfuel. destruct args as [|a rest]; [done|]. simpl.
  destruct (rest !! 0) as [[w|lf isx]|]; try done.
  destruct (path_argument (rest !! 1)) as [path|]; [|done].
  destruct (recurse_top F isx h Hwf fuel (arg_value a) path (Hv a eq_refl) Hfuel)
    as (clone & st & Hr & Hinv & _).
  rewrite Hr. simpl.
  pose proof (recurse_same_run F isx h Hwf Hord fuel ∅ ltac:(lia) (arg_value a)
                path (State h ∅ []) clone st (Hv a eq_refl)
                (inv_init F isx h) Hr) as Hjs.
  unfold unreplaced in Hjs. by rewrite Hjs.
Qed.

Lemma extractFiles_ordinary_return F isx (h : heap) v lf path fuel clone fs h' :
  wf_heap h → ordinary h → wf_value h v → length h < fuel →
  extractFiles F fuel h [AVal v; AFun lf isx; AVal (VString path)]
  = Some (Return clone fs h') →
  Js.extractFiles F fuel h [AVal v; AFun lf isx; AVal (VString path)]
  = Some (Js.Return clone fs h' ∅).
Proof.
  intros Hwf Hord Hv Hfuel Hr.
  rewrite extractFiles_ordinary, Hr; try done. by intros a [= <-].
Qed.

(** ** What holds with ordinary keys *)

(** On inputs with ordinary keys [Js.extractFiles] raises exactly on a
    violation of the argument contract, and returns otherwise. *)
Lemma throws_iff_contract_violation_ordinary F (h : heap) args fuel :
  wf_heap h → ordinary h →
  (∀ a, args !! 0 = Some a → wf_value h (arg_value a)) →
  length h < fuel →
  ((∃ msg, Js.extractFiles F fuel h args = Some (Js.Throw msg))
   ↔ contract_violation args) ∧
  (¬ contract_violation args →
   ∃ clone fs h', Js.extractFiles F fuel h args
                  = Some (Js.Return clone fs h' ∅)).
Proof.
  intros Hwf Hord Hv Hfuel.
  destruct (extractFiles_throws_iff_contract_violation F h args fuel Hwf Hv Hfuel)
    as (Hiff & _ & Hret).
  rewrite (extractFiles_ordinary F h args fuel Hwf Hord Hv Hfuel). split.
  - rewrite <- Hiff. split.
    + intros [msg Hm]. exists msg.
      by destruct (extractFiles F fuel h args) as [[]|]; simplify_eq/=.
    + intros [msg ->]. by exists msg.
  - intros Hok. destruct (Hret Hok) as (clone & fs & h' & ->).
    by exists clone, fs, h'.
Qed.

(** On inputs with ordinary keys [Js.extractFiles] returns, cyclic inputs
    included. *)
Lemma terminates_on_ordinary_cycles F isx (h : heap) v lf path fuel :
  wf_heap h → ordinary h → wf_value h v → length h < fuel →
  ∃ clone fs h',
    Js.extractFiles F fuel h [AVal v; AFun lf isx; AVal (VString path)]
    = Some (Js.Return clone fs h' ∅).
Proof.
  intros Hwf Hord Hv Hfuel.
  destruct (extract_ok F isx h v lf path fuel Hwf Hv Hfuel)
    as (clone & st & Hr & _).
  exists clone, (files st), (store st).
  by apply extractFiles_ordinary_return.
Qed.

Lemma no_files_structural_copy_ordinary F isx (h : heap) v lf path fuel :
  wf_heap h → ordinary h → wf_value h v →
  (∀ p u, at_path F h v p = Some u → isx u = false) →
  length h < fuel →
  ∃ clone h',
    Js.extractFiles F fuel h [AVal v; AFun lf isx; AVal (VString path)]
    = Some (Js.Return clone [] h' ∅) ∧
    deep_equal F h v h' clone ∧
    (∀ p c, at_path F h' clone p = Some (VRef c) →
            is_Some (container F h' (VRef c)) → length h ≤ c).
Proof.
  intros Hwf Hord Hv Hno Hfuel.
  destruct (no_files_structural_copy F isx h v lf path fuel Hwf Hv Hno Hfuel)
    as (clone & h' & Hr & Heq).
  exists clone, h'. split; [by apply extractFiles_ordinary_return|done].
Qed.

Lemma shared_container_single_clone_ordinary F isx (h : heap) v lf path fuel :
  wf_heap h → ordinary h → wf_value h v → length h < fuel →
  ∃ clone fs h',
    Js.extractFiles F fuel h [AVal v; AFun lf isx; AVal (VString path)]
    = Some (Js.Return clone fs h' ∅) ∧
    ∀ p1 p2 l s,
      walk F isx h v p1 = Some (VRef l) → walk F isx h v p2 = Some (VRef l) →
      isx (VRef l) = false → container F h (VRef l) = Some (l, s) →
      ∃ c s',
        at_path F h' clone p1 = Some (VRef c) ∧
        at_path F h' clone p2 = Some (VRef c) ∧
        length h ≤ c ∧
        container F h' (VRef c) = Some (c, s') ∧
        same_kind s s' ∧ (entries s').*1 = (entries s).*1.
Proof.
  intros Hwf Hord Hv Hfuel.
  destruct (shared_container_single_clone F isx h v lf path fuel Hwf Hv Hfuel)
    as (clone & fs & h' & Hr & Hshared).
  exists clone, fs, h'. split; [by apply extractFiles_ordinary_return|done].
Qed.

Lemma cycle_preserved_in_clone_ordinary F isx (h : heap) v lf path fuel :
  wf_heap h → ordinary h → wf_value h v → length h < fuel →
  ∃ clone fs h',
    Js.extractFiles F fuel h [AVal v; AFun lf isx; AVal (VString path)]
    = Some (Js.Return clone fs h' ∅) ∧
    ∀ q p l,
      walk F isx h v q = Some (VRef l) → p ≠ [] →
      walk F isx h (VRef l) p = Some (VRef l) →
      ∃ c,
        at_path F h' clone q = Some (VRef c) ∧
        at_path F h' (VRef c) p = Some (VRef c) ∧
        length h ≤ c.
Proof.
  intros Hwf Hord Hv Hfuel.
  destruct (cycle_preserved_in_clone F isx h v lf path fuel Hwf Hv Hfuel)
    as (clone & fs & h' & Hr & Hcycle).
  exists clone, fs, h'. split; [by apply extractFiles_ordinary_return|done].
Qed.

(** X4. On an input with ordinary keys, position by position: where the
    input holds a file the clone holds [null], and where it holds a value
    that is neither a file nor a recognised container the clone holds that
    very value; no prototype is replaced. *)
Theorem clone_leaves_ordinary F isx (h : heap) v lf path fuel :
  wf_heap h → ordinary h → wf_value h v → length h < fuel →
  ∃ clone fs h',
    Js.extractFiles F fuel h [AVal v; AFun lf isx; AVal (VString path)]
    = Some (Js.Return clone fs h' ∅) ∧
    ∀ segs u, walk F isx h v segs = Some u →
      (isx u = true → at_path F h' clone segs = Some VNull) ∧
      (isx u = false → container F h u = None →
       at_path F h' clone segs = Some u).
Proof.
  intros Hwf Hord Hv Hfuel.
  destruct (clone_leaves F isx h v lf path fuel Hwf Hv Hfuel)
    as (clone & fs & h' & Hr & Hleaves).
  exists clone, fs, h'. split; [by apply extractFiles_ordinary_return|done].
Qed.

Lemma clone_leaves_ordinary_witness :
  ∃ clone fs h',
    Js.extractFiles true 5 Knot.h
      [AVal (VRef 0); AFun 3 Knot.isFile; AVal (VString "")]
    = Some (Js.Return clone fs h' ∅) ∧
    ∀ segs u, walk true Knot.isFile Knot.h (VRef 0) segs = Some u →
      (Knot.isFile u = true → at_path true h' clone segs = Some VNull) ∧
      (Knot.isFile u = false → container true Knot.h u = None →
       at_path true h' clone segs = Some u).
Proof.
  apply (clone_leaves_ordinary true Knot.isFile Knot.h (VRef 0) 3 "" 5).
  - compute_done.
  - compute_done.
  - vm_compute; lia.
  - vm_compute; lia.
Defined.

(** X13. End to end, for an operation body with ordinary keys: the entry of
    the map under the index of a file lists paths that each address, in the
    operation body, that very file, and at each of them the payload sent as
    [operations] holds [null]. *)
Theorem map_paths_address_files_ordinary F isx (h : heap) body lf fuel :
  wf_heap h → ordinary h → wf_value h body → length h < fuel →
  ∃ clone fs h',
    Js.extractFiles F fuel h [AVal body; AFun lf isx; AVal (VString "")]
    = Some (Js.Return clone fs h' ∅) ∧
    ∀ i f ps p, fs !! i = Some (f, ps) → p ∈ ps →
      prop_get (build_map fs) (pretty (S i)) = Some ps ∧
      ∃ segs, p = join_path "" segs ∧ walk F isx h body segs = Some f ∧
              isx f = true ∧ at_path F h' clone segs = Some VNull.
Proof.
  intros Hwf Hord Hv Hfuel.
  destruct (map_paths_address_files F isx h body lf fuel Hwf Hv Hfuel)
    as (clone & fs & h' & Hr & Hmap).
  exists clone, fs, h'. split; [by apply extractFiles_ordinary_return|done].
Qed.

Lemma map_paths_address_files_ordinary_witness :
  ∃ clone fs h',
    Js.extractFiles true 5 Knot.h
      [AVal (VRef 0); AFun 3 Knot.isFile; AVal (VString "")]
    = Some (Js.Return clone fs h' ∅) ∧
    ∀ i f ps p, fs !! i = Some (f, ps) → p ∈ ps →
      prop_get (build_map fs) (pretty (S i)) = Some ps ∧
      ∃ segs, p = join_path "" segs ∧
              walk true Knot.isFile Knot.h (VRef 0) segs = Some f ∧
              Knot.isFile f = true ∧ at_path true h' clone segs = Some VNull.
Proof.
  apply (map_paths_address_files_ordinary true Knot.isFile Knot.h (VRef 0) 3 5).
  - compute_done.
  - compute_done.
  - vm_compute; lia.
  - vm_compute; lia.
Defined.

(** X14. On an input with ordinary keys the clone of an array or of a file
    list is an array with as many items, and the clone of a plain object is
    a plain object of the same sort ([Object] instance or null prototype)
    with the same keys in the same order and the prototype it was created
    with: no file list is left in the clone. *)
Theorem clone_kinds_ordinary F isx (h : heap) v lf path fuel :
  wf_heap h → ordinary h → wf_value h v → length h < fuel →
  ∃ clone fs h',
    Js.extractFiles F fuel h [AVal v; AFun lf isx; AVal (VString path)]
    = Some (Js.Return clone fs h' ∅) ∧
    ∀ segs l s,
      walk F isx h v segs = Some (VRef l) → isx (VRef l) = false →
      container F h (VRef l) = Some (l, s) →
      ∃ c, at_path F h' clone segs = Some (VRef c) ∧
        match s with
        | SList items =>
            ∃ items', h' !! c = Some (OArray items') ∧
                      length items' = length items
        | SPlain inst props =>
            ∃ props', h' !! c = Some (OPlain inst props') ∧
                      props'.*1 = props.*1
        end.
Proof.
  intros Hwf Hord Hv Hfuel.
  destruct (clone_kinds F isx h v lf path fuel Hwf Hv Hfuel)
    as (clone & fs & h' & Hr & Hkinds).
  exists clone, fs, h'. split; [by apply extractFiles_ordinary_return|done].
Qed.

Lemma clone_kinds_ordinary_witness :
  ∃ clone fs h',
    Js.extractFiles true 5 Knot.h
      [AVal (VRef 0); AFun 3 Knot.isFile; AVal (VString "")]
    = Some (Js.Return clone fs h' ∅) ∧
    ∀ segs l s,
      walk true Knot.isFile Knot.h (VRef 0) segs = Some (VRef l) →
      Knot.isFile (VRef l) = false →
      container true Knot.h (VRef l) = Some (l, s) →
      ∃ c, at_path true h' clone segs = Some (VRef c) ∧
        match s with
        | SList items =>
            ∃ items', h' !! c = Some (OArray items') ∧
                      length items' = length items
        | SPlain inst props =>
            ∃ props', h' !! c = Some (OPlain inst props') ∧
                      props'.*1 = props.*1
        end.
Proof.
  apply (clone_kinds_ordinary true Knot.isFile Knot.h (VRef 0) 3 "" 5).
  - compute_done.
  - compute_done.
  - vm_compute; lia.
  - vm_compute; lia.
Defined.

(** The documented example, on the engine's objects. *)
Example documented_example_js :
  Js.extractFiles true 3 Example1.h0
    [AVal Example1.input; AFun 4 Example1.isFile; AVal (VString "")]
  = Some (Js.Return (VRef 5)
            [(Example1.file1, ["a"; "b.0"]); (Example1.file2, ["b.1"])]
            (Example1.h0 ++ [ OPlain true [("a", VNull); ("b", VRef 6)];
                              OArray [VNull; VNull] ])
            ∅).
Proof. by vm_compute. Qed.

(** ** Keys that are not ordinary *)

(** An array index that [for ... in] lists after another key (an inherited
    one, for instance) comes first among the own keys of the clone. *)
Example array_index_first :
  Js.extractFiles true 2
    [OPlain false [("b", VNumber 1); ("10", VNumber 2); ("9", VNumber 3)];
     OOther "Function"]
    [AVal (VRef 0); AFun 1 ProtoKey.never; AVal (VString "")]
  = Some (Js.Return (VRef 2) []
            [OPlain false [("b", VNumber 1); ("10", VNumber 2); ("9", VNumber 3)];
             OOther "Function";
             OPlain false [("9", VNumber 3); ("10", VNumber 2); ("b", VNumber 1)]]
            ∅).
Proof. by vm_compute. Qed.

(** On the clone of an object without prototype the same assignment does
    create the own property [__proto__] (line 398). *)
Example proto_key_copied_without_prototype :
  Js.extractFiles true 2
    [OPlain false [("__proto__", VNumber 5); ("b", VNumber 2)];
     OOther "Function"]
    [AVal (VRef 0); AFun 1 ProtoKey.never; AVal (VString "")]
  = Some (Js.Return (VRef 2) []
            [OPlain false [("__proto__", VNumber 5); ("b", VNumber 2)];
             OOther "Function";
             OPlain false [("__proto__", VNumber 5); ("b", VNumber 2)]]
            ∅).
Proof. by vm_compute. Qed.

(** The same self-reference in an object without prototype is cloned. *)
Example proto_cycle_copied_without_prototype :
  Js.extractFiles true 2 [OPlain false [("__proto__", VRef 0)]; OOther "Function"]
    [AVal (VRef 0); AFun 1 ProtoKey.never; AVal (VString "")]
  = Some (Js.Return (VRef 2) []
            [OPlain false [("__proto__", VRef 0)]; OOther "Function";
             OPlain false [("__proto__", VRef 2)]]
            ∅).
Proof. by vm_compute. Qed.

(** A file under the key [__proto__] is recorded, and its [null] becomes
    the prototype of the clone instead of an entry. *)
Example proto_key_file :
  Js.extractFiles true 2
    [OPlain true [("__proto__", VRef 1); ("n", VNumber 1)]; OOther "File";
     OOther "Function"]
    [AVal (VRef 0); AFun 2 (λ v, bool_decide (v = VRef 1)); AVal (VString "variables")]
  = Some (Js.Return (VRef 3) [(VRef 1, ["variables.__proto__"])]
            [OPlain true [("__proto__", VRef 1); ("n", VNumber 1)]; OOther "File";
             OOther "Function"; OPlain true [("n", VNumber 1)]]
            {[3 := VNull]}).
Proof. by vm_compute. Qed.

(** C2. Code defect, on [JSON.parse('{"__proto__": 5, "b": 2}')] with a
    classifier that rejects everything: the assignment [clone["__proto__"] = 5]
    of line 429 calls the setter inherited by the clone [{}], which ignores
    the number, so that the clone returned is [{ b: 2 }].  The file map is
    empty, but the clone is not deep-structurally equal to the input. *)
Theorem proto_key_missing_from_copy F n :
  let h' := ProtoKey.literal ++ [OPlain true [("b", VNumber 2)]] in
  wf_heap ProtoKey.literal ∧
  Js.extractFiles F (2 + n) ProtoKey.literal
    [AVal (VRef 0); AFun 1 ProtoKey.never; AVal (VString "")]
  = Some (Js.Return (VRef 2) [] h' ∅) ∧
  at_path F ProtoKey.literal (VRef 0) ["__proto__"] = Some (VNumber 5) ∧
  at_path F h' (VRef 2) ["__proto__"] = None ∧
  ¬ deep_equal F ProtoKey.literal (VRef 0) h' (VRef 2).
Proof.
  split_and!; [compute_done|by destruct F|done|done|].
  intros (R & Hroot & Hstep). specialize (Hstep _ _ Hroot). simpl in Hstep.
  destruct Hstep as [_ Hkeys]. inversion Hkeys as [|x y xs ys [Hk _] Hrest]; subst.
  done.
Qed.

(** C3. Code defect, on [a] with [a = JSON.parse('{"__proto__": null}')]
    and [a.__proto__ = a]: the call violates none of the three argument
    contracts, and the assignment [clone["__proto__"] = clone] of line 429
    raises a [TypeError], the prototype chain of the clone being about to
    become cyclic. *)
Theorem proto_cycle_raises_without_violation F n :
  let args := [AVal (VRef 0); AFun 1 ProtoKey.never; AVal (VString "")] in
  wf_heap ProtoKey.self ∧ ¬ contract_violation args ∧
  Js.extractFiles F (2 + n) ProtoKey.self args
  = Some (Js.Throw "Cyclic __proto__ value").
Proof.
  split_and!; [compute_done| |by destruct F].
  intros [Hv|[Hc|(a & [= <-] & _ & Hs)]]; [done| |by apply (Hs "")].
  by apply (Hc 1 ProtoKey.never).
Qed.

(** C4. Code defect, on two objects that hold each other under the own key
    [__proto__]: the input is cyclic, the traversal does stop at the open
    container, and the call ends with a [TypeError] raised by the
    assignment of line 429 instead of returning. *)
Theorem proto_cycle_not_returned F n :
  wf_heap ProtoKey.pair ∧
  walk F ProtoKey.never ProtoKey.pair (VRef 0) ["__proto__"; "__proto__"]
  = Some (VRef 0) ∧
  Js.extractFiles F (3 + n) ProtoKey.pair
    [AVal (VRef 0); AFun 2 ProtoKey.never; AVal (VString "")]
  = Some (Js.Throw "Cyclic __proto__ value").
Proof. split_and!; [compute_done|done|by destruct F]. Qed.


(** C10. Code defect, on containers that contain themselves through the
    own key [__proto__]: for [a] with [a.__proto__ = a] the call raises a
    [TypeError] and returns no clone; for [r = { "__proto__": c }] with
    [c = [r]] the clone of [r] has no entry under [__proto__], so that the
    path that leads from [r] back to [r] leads nowhere in the clone. *)
Theorem proto_key_cycle_not_in_clone F n :
  let h' := ProtoKey.loop ++ [OPlain true []; OArray [VRef 3]] in
  walk F ProtoKey.never ProtoKey.self (VRef 0) ["__proto__"] = Some (VRef 0) ∧
  Js.extractFiles F (2 + n) ProtoKey.self
    [AVal (VRef 0); AFun 1 ProtoKey.never; AVal (VString "")]
  = Some (Js.Throw "Cyclic __proto__ value") ∧
  wf_heap ProtoKey.loop ∧
  walk F ProtoKey.never ProtoKey.loop (VRef 0) ["__proto__"; "0"]
  = Some (VRef 0) ∧
  Js.extractFiles F (3 + n) ProtoKey.loop
    [AVal (VRef 0); AFun 2 ProtoKey.never; AVal (VString "")]
  = Some (Js.Return (VRef 3) [] h' {[3 := VRef 4]}) ∧
  at_path F h' (VRef 3) ["__proto__"; "0"] = None.
Proof.
  split_and!; [done|by destruct F|compute_done|done| |done].
  destruct F; vm_compute; reflexivity.
Qed.
